(** * Monte Carlo tree search over a simworld: a shallow embedding

    The development follows [monte_carlo_ts.py] (class
    [MonteCarloTreeSearch]) and [game_nim.py] (class [GameNim]).

    Numbers.  Python's [int] counters only ever start at [0] and grow by
    [1], they are [nat].  Action values are Python floats; the embedding
    idealises their arithmetic as exact arithmetic on [Q] and compares
    them with [Qeq].  The results of NumPy operations are IEEE doubles
    that may be infinite or NaN ([np.log 0], [0 / 0]); they are values of
    [xfloat].  [np.log] and [np.sqrt] themselves are NumPy's: their values
    on positive integers and on non-negative numbers are parameters
    ([ln_q], [sqrt_q]) of the embedding.

    Effects.  The search object is mutated in place and Python exceptions
    abandon the current call but keep every mutation made so far: a
    computation is a function from the object to a [result] and the
    object it leaves behind. *)

From Stdlib Require Import QArith Qround Lia Lra Psatz.
From stdpp Require Import gmap list fin_maps fin_sets.

(** ** Exceptions and results *)

Inductive exn : Set := KeyError | ValueError | IndexError | TypeError.

(** [OutOfFuel] is not a Python outcome: it marks a [while] loop that is
    still running when the fuel given to the embedding is used up. *)
Inductive result (A : Type) : Type :=
  | Ok (a : A)
  | Raise (e : exn)
  | OutOfFuel.
Arguments Ok {A} a.
Arguments Raise {A} e.
Arguments OutOfFuel {A}.

Definition is_ok {A} (r : result A) : bool :=
  match r with Ok _ => true | _ => false end.

(** ** NumPy doubles, idealised *)

Inductive xfloat : Type :=
  | Fin (q : Q)
  | PInf
  | NInf
  | NaN.

Definition is_nan (x : xfloat) : bool :=
  match x with NaN => true | _ => false end.

Definition xneg (x : xfloat) : xfloat :=
  match x with
  | Fin q => Fin (- q)%Q
  | PInf => NInf
  | NInf => PInf
  | NaN => NaN
  end.

Definition xadd (x y : xfloat) : xfloat :=
  match x, y with
  | NaN, _ | _, NaN => NaN
  | Fin a, Fin b => Fin (a + b)%Q
  | PInf, NInf | NInf, PInf => NaN
  | PInf, _ | _, PInf => PInf
  | NInf, _ | _, NInf => NInf
  end.

Definition xsub (x y : xfloat) : xfloat := xadd x (xneg y).

Definition xmul (x y : xfloat) : xfloat :=
  match x, y with
  | NaN, _ | _, NaN => NaN
  | Fin a, Fin b => Fin (a * b)%Q
  | Fin a, PInf | PInf, Fin a =>
      match (a ?= 0)%Q with Eq => NaN | Gt => PInf | Lt => NInf end
  | Fin a, NInf | NInf, Fin a =>
      match (a ?= 0)%Q with Eq => NaN | Gt => NInf | Lt => PInf end
  | PInf, PInf | NInf, NInf => PInf
  | PInf, NInf | NInf, PInf => NInf
  end.

Definition xdiv (x y : xfloat) : xfloat :=
  match x, y with
  | NaN, _ | _, NaN => NaN
  | Fin a, Fin b =>
      if Qeq_bool b 0%Q
      then match (a ?= 0)%Q with Eq => NaN | Gt => PInf | Lt => NInf end
      else Fin (a / b)%Q
  | Fin _, _ => Fin 0%Q
  | _, PInf | _, NInf => NaN
  | PInf, Fin b => match (b ?= 0)%Q with Lt => NInf | _ => PInf end
  | NInf, Fin b => match (b ?= 0)%Q with Lt => PInf | _ => NInf end
  end.

(** IEEE [<=]: false as soon as one side is NaN. *)
Definition xleb (x y : xfloat) : bool :=
  match x, y with
  | NaN, _ | _, NaN => false
  | NInf, _ | _, PInf => true
  | Fin a, Fin b => Qle_bool a b
  | _, _ => false
  end.

Definition of_nat (n : nat) : Q := inject_Z (Z.of_nat n).


(** [np.argmax] on a one-dimensional array of doubles: the first
    occurrence of the maximum, and the first NaN when there is one.
    [arg_from mp best i l] is the scan loop with running extreme [mp] at
    index [best], about to read index [i]. *)
Section ArgExtreme.
Variable better : xfloat → xfloat → bool.
(* [better x mp] is NumPy's test [!(x <= mp)] (argmax) or
   [!(x >= mp)] (argmin) *)

Fixpoint arg_from (mp : xfloat) (best i : nat) (l : list xfloat) : nat :=
  match l with
  | [] => best
  | x :: l' =>
      if is_nan mp then best
      else if better x mp then arg_from x i (S i) l'
           else arg_from mp best (S i) l'
  end.

Definition arg_extreme (l : list xfloat) : result nat :=
  match l with
  | [] => Raise ValueError
  | x :: l' => Ok (arg_from x 0 1 l')
  end.
End ArgExtreme.

Definition np_argmax : list xfloat → result nat :=
  arg_extreme (λ x mp, negb (xleb x mp)).
Definition np_argmin : list xfloat → result nat :=
  arg_extreme (λ x mp, negb (xleb mp x)).

(** ** Python sequences *)

(** [xs[i]] with Python's negative indices. *)
Definition py_index {A} (xs : list A) (i : Z) : result A :=
  let n := Z.of_nat (length xs) in
  let j := (if i <? 0 then n + i else i)%Z in
  if ((j <? 0) || (n <=? j))%Z then Raise IndexError
  else match xs !! Z.to_nat j with
       | Some x => Ok x
       | None => Raise IndexError
       end.

(** [xs[i] = v]. *)
Definition py_setitem {A} (xs : list A) (i : Z) (v : A) : result (list A) :=
  let n := Z.of_nat (length xs) in
  let j := (if i <? 0 then n + i else i)%Z in
  if ((j <? 0) || (n <=? j))%Z then Raise IndexError
  else Ok (<[Z.to_nat j := v]> xs).

(** [xs.index(v)]. *)
Fixpoint py_list_index (xs : list Z) (v : Z) : result nat :=
  match xs with
  | [] => Raise ValueError
  | x :: xs' =>
      if (x =? v)%Z then Ok 0
      else match py_list_index xs' v with
           | Ok i => Ok (S i)
           | r => r
           end
  end.

(** A pure computation that may raise. *)
Definition rbind {A B} (r : result A) (k : A → result B) : result B :=
  match r with
  | Ok a => k a
  | Raise e => Raise e
  | OutOfFuel => OutOfFuel
  end.

(** ** [game_nim.py] *)

Module GameNim.

(** A state is a Python list (the one-hot encoding with the player id
    appended) or a Python tuple (what [get_child_state] returns). *)
Inductive pyseq : Type :=
  | PyList (xs : list Z)
  | PyTuple (xs : list Z).

Definition items (s : pyseq) : list Z :=
  match s with PyList xs | PyTuple xs => xs end.

(** Slicing keeps the kind of sequence. *)
Definition but_last (s : pyseq) : pyseq :=
  match s with
  | PyList xs => PyList (removelast xs)
  | PyTuple xs => PyTuple (removelast xs)
  end.

Record t : Type := { num_pieces : Z; max_take : Z }.

Definition get_one_hot_from_state (g : t) (state_num : pyseq)
  : result pyseq :=
  rbind (py_index (items state_num) 1) (λ pid,
  rbind (py_index (items state_num) 0) (λ curr_discs,
  let state_oh := replicate (Z.to_nat (num_pieces g + 1)) 0%Z in
  rbind (py_setitem state_oh curr_discs 1%Z) (λ state_oh,
  Ok (PyList (state_oh ++ [pid]))))).

Definition get_initial_state (g : t) : result pyseq :=
  get_one_hot_from_state g (PyTuple [num_pieces g; 0%Z]).

Definition get_num_discs_from_one_hot (state_oh : pyseq) : result Z :=
  rbind (py_list_index (items (but_last state_oh)) 1)
        (λ curr_discs, Ok (Z.of_nat curr_discs)).

(** [list(range(1, hi + 1))] *)
Definition range1 (hi : Z) : list Z :=
  map (λ i, Z.of_nat i + 1)%Z (seq 0 (Z.to_nat hi)).

Definition get_legal_actions (g : t) (state : pyseq) : result (list Z) :=
  rbind (get_num_discs_from_one_hot state) (λ num_discs,
  Ok (range1 (Z.min num_discs (max_take g)))).

Definition get_child_state (g : t) (state : pyseq) (action : Z)
  : result pyseq :=
  rbind (get_num_discs_from_one_hot state) (λ num_discs,
  if ((action <? 1) || (max_take g <? action))%Z then Raise ValueError
  else if (num_discs <? action)%Z then Raise ValueError
  else
    let child_state_pieces := (num_discs - action)%Z in
    rbind (py_index (items state) (-1)) (λ pid,
    let child_state_pid := (1 - pid)%Z in
    Ok (PyTuple [child_state_pieces; child_state_pid]))).

Definition state_is_final (state : pyseq) : result bool :=
  rbind (py_index (items state) 0) (λ x, Ok (x =? 1)%Z).

Definition p0_to_play (state : pyseq) : result bool :=
  rbind (py_index (items state) (-1)) (λ x, Ok (x =? 0)%Z).

(** [state_is_final(state) and not p0_to_play(state)]: the right
    operand is evaluated only when the left one is true. *)
Definition winner_is_p0 (state : pyseq) : result bool :=
  rbind (state_is_final state) (λ fin,
  if fin then rbind (p0_to_play state) (λ p0, Ok (negb p0))
  else Ok false).

Definition get_state_size (g : t) : result Z :=
  rbind (get_initial_state g) (λ s, Ok (Z.of_nat (length (items s)))).

Definition get_move_size (g : t) : Z := 1.

(** The loop of [get_all_child_states]: the list it builds. *)
Fixpoint child_pairs (g : t) (state : pyseq) (actions : list Z)
  : result (list (Z * pyseq)) :=
  match actions with
  | [] => Ok []
  | action :: actions' =>
      rbind (get_child_state g state action) (λ child,
      rbind (child_pairs g state actions') (λ pairs,
      Ok ((action, child) :: pairs)))
  end.

(** [get_all_child_states] builds [action_state_pairs] and ends without
    a [return]: the value of the call is Python's [None]. *)
Definition get_all_child_states (g : t) (state : pyseq)
  : result (option (list (Z * pyseq))) :=
  rbind (get_legal_actions g state) (λ actions,
  rbind (child_pairs g state actions) (λ action_state_pairs,
  Ok None)).

End GameNim.

(** ** One-hot vectors *)




(** ** The collaborators of the search: simworld and default policy *)

(** An action is a tuple of integers (a one-hot vector over the whole
    move space): [get_visited_distribution] takes [len] of an action and
    turns it into an array. *)
Abbreviation Action := (list Z) (only parsing).

(** What [MonteCarloTreeSearch] asks of [self.board].  States are
    hashable values; only [get_child_state] is documented to raise. *)
Class SimWorld (State : Type) : Type := {
  get_legal_actions : State → list Action;
  get_child_state : State → Action → result State;
  state_is_final : State → bool;
  p0_to_play : State → bool;
  winner_is_p0 : State → bool;
}.

(** What it asks of [self.default_policy]: [propose_action(state,
    epsilon)] draws an action; [Policy] is whatever the policy keeps
    between two draws (its random generator). *)
Class DefaultPolicy (State Policy : Type) : Type := {
  propose_action : State → Q → Policy → Action * Policy;
}.

(** ** [monte_carlo_ts.py] *)

Section MCTS.
Context {State : Type} `{Countable State}.
Context {Policy : Type}.
Context {board : SimWorld State} {default_policy : DefaultPolicy State Policy}.

(** [np.log] on the positive integers and [np.sqrt] on the
    non-negative numbers. *)
Variable ln_q : nat → Q.
Variable sqrt_q : Q → Q.

Definition np_log (n : nat) : xfloat :=
  match n with
  | O => NInf
  | S _ => Fin (ln_q n)
  end.

Definition np_sqrt (x : xfloat) : xfloat :=
  match x with
  | Fin q => if Qle_bool 0 q then Fin (sqrt_q q) else NaN
  | PInf => PInf
  | NInf | NaN => NaN
  end.

(** The fields of a [MonteCarloTreeSearch] object.  [policy] is the
    state of [self.default_policy]; [log_args] is a ghost field, the
    arguments [np.log] has been called with, oldest first. *)
Record mcts : Type := Mcts {
  epsilon : Q;
  default_exp_const : Q;
  simulations : nat;
  state : option State;
  tree : gset State;
  heuristic : gmap (State * Action) Q;
  visit_counts_s : gmap State nat;
  visit_counts_sa : gmap (State * Action) nat;
  policy : Policy;
  log_args : list nat;
}.

Definition set_state (v : option State) (σ : mcts) : mcts :=
  Mcts (epsilon σ) (default_exp_const σ) (simulations σ) v (tree σ)
       (heuristic σ) (visit_counts_s σ) (visit_counts_sa σ) (policy σ)
       (log_args σ).
Definition set_tree (v : gset State) (σ : mcts) : mcts :=
  Mcts (epsilon σ) (default_exp_const σ) (simulations σ) (state σ) v
       (heuristic σ) (visit_counts_s σ) (visit_counts_sa σ) (policy σ)
       (log_args σ).
Definition set_heuristic (v : gmap (State * Action) Q) (σ : mcts) : mcts :=
  Mcts (epsilon σ) (default_exp_const σ) (simulations σ) (state σ) (tree σ)
       v (visit_counts_s σ) (visit_counts_sa σ) (policy σ) (log_args σ).
Definition set_visit_counts_s (v : gmap State nat) (σ : mcts) : mcts :=
  Mcts (epsilon σ) (default_exp_const σ) (simulations σ) (state σ) (tree σ)
       (heuristic σ) v (visit_counts_sa σ) (policy σ) (log_args σ).
Definition set_visit_counts_sa (v : gmap (State * Action) nat) (σ : mcts)
  : mcts :=
  Mcts (epsilon σ) (default_exp_const σ) (simulations σ) (state σ) (tree σ)
       (heuristic σ) (visit_counts_s σ) v (policy σ) (log_args σ).
Definition set_policy (v : Policy) (σ : mcts) : mcts :=
  Mcts (epsilon σ) (default_exp_const σ) (simulations σ) (state σ) (tree σ)
       (heuristic σ) (visit_counts_s σ) (visit_counts_sa σ) v (log_args σ).
Definition set_log_args (v : list nat) (σ : mcts) : mcts :=
  Mcts (epsilon σ) (default_exp_const σ) (simulations σ) (state σ) (tree σ)
       (heuristic σ) (visit_counts_s σ) (visit_counts_sa σ) (policy σ) v.

(** *** Computations on the search object *)

Definition M (A : Type) : Type := mcts → result A * mcts.

Definition ret {A} (a : A) : M A := λ σ, (Ok a, σ).
Definition raise {A} (e : exn) : M A := λ σ, (Raise e, σ).
Definition diverge {A} : M A := λ σ, (OutOfFuel, σ).
Definition bind {A B} (m : M A) (k : A → M B) : M B :=
  λ σ, match m σ with
       | (Ok a, σ') => k a σ'
       | (Raise e, σ') => (Raise e, σ')
       | (OutOfFuel, σ') => (OutOfFuel, σ')
       end.
Definition gets {A} (f : mcts → A) : M A := λ σ, (Ok (f σ), σ).
Definition modify (f : mcts → mcts) : M unit := λ σ, (Ok tt, f σ).
(** A call that does not touch the object, such as a call of the
    simworld. *)
Definition call {A} (r : result A) : M A := λ σ, (r, σ).
(** [d[k]] on a dictionary. *)
Definition getitem {K V} `{Countable K} (d : gmap K V) (k : K) : M V :=
  match d !! k with
  | Some v => ret v
  | None => raise KeyError
  end.

#[global] Instance mcts_ret : MRet M := @ret.
#[global] Instance mcts_bind : MBind M := λ A B k m, bind m k.

Fixpoint for_each {A} (l : list A) (body : A → M unit) : M unit :=
  match l with
  | [] => ret tt
  | x :: l' => body x;; for_each l' body
  end.

Fixpoint map_each {A B} (l : list A) (body : A → M B) : M (list B) :=
  match l with
  | [] => ret []
  | x :: l' => y ← body x; ys ← map_each l' body; ret (y :: ys)
  end.

(** [self.state], which [simulate] and [mc_tree_search] set before it
    is read. *)
Definition current_state : M State :=
  s ← gets state;
  match s with
  | Some s => ret s
  | None => raise TypeError
  end.

Definition initialize_variables : M unit :=
  modify (set_tree ∅);;
  modify (set_heuristic ∅);;
  modify (set_visit_counts_s ∅);;
  modify (set_visit_counts_sa ∅).

Definition new_node (state_t : State) : M unit :=
  modify (λ σ, set_tree ({[state_t]} ∪ tree σ) σ);;
  modify (λ σ, set_visit_counts_s (<[state_t := 0]> (visit_counts_s σ)) σ);;
  let legal_actions := get_legal_actions state_t in
  for_each legal_actions (λ action,
    modify (λ σ, set_visit_counts_sa
                   (<[(state_t, action) := 0]> (visit_counts_sa σ)) σ);;
    modify (λ σ, set_heuristic
                   (<[(state_t, action) := 0%Q]> (heuristic σ)) σ)).

(** One value of the [action_values] list of [select_action]:
    [h + exploration * np.sqrt(np.log(n_s) / (n_sa + 1))] for player 0,
    with [-] in place of the first [+] for player 1.  The operands are
    evaluated from left to right: the lookup in [heuristic], then
    [visit_counts_s] and [np.log], then [visit_counts_sa]. *)
Definition action_value (p0 : bool) (state_ : State) (exploration : Q)
    (action : Action) : M xfloat :=
  σ ← gets id;
  h ← getitem (heuristic σ) (state_, action);
  n_s ← getitem (visit_counts_s σ) state_;
  modify (λ σ, set_log_args (log_args σ ++ [n_s]) σ);;
  let log_n := np_log n_s in
  n_sa ← getitem (visit_counts_sa σ) (state_, action);
  let bonus :=
    xmul (Fin exploration) (np_sqrt (xdiv log_n (Fin (of_nat n_sa + 1)))) in
  ret (if p0 then xadd (Fin h) bonus else xsub (Fin h) bonus).

Definition select_action (state_ : State) (exploration : Q) : M Action :=
  let legal_actions := get_legal_actions state_ in
  if p0_to_play state_ then
    action_values ← map_each legal_actions
                      (action_value true state_ exploration);
    chosen_action_index ← call (np_argmax action_values);
    match legal_actions !! chosen_action_index with
    | Some chosen_action => ret chosen_action
    | None => raise IndexError
    end
  else
    action_values ← map_each legal_actions
                      (action_value false state_ exploration);
    chosen_action_index ← call (np_argmin action_values);
    match legal_actions !! chosen_action_index with
    | Some chosen_action => ret chosen_action
    | None => raise IndexError
    end.

(** The body of the loop of [backup].  The division is by a counter
    that has just been incremented, so it is never by zero. *)
Definition backup_pair (outcome : Q) (stat_act : State * Action) : M unit :=
  σ ← gets id;
  n_s ← getitem (visit_counts_s σ) stat_act.1;
  modify (λ σ, set_visit_counts_s
                 (<[stat_act.1 := n_s + 1]> (visit_counts_s σ)) σ);;
  σ ← gets id;
  n_sa ← getitem (visit_counts_sa σ) stat_act;
  modify (λ σ, set_visit_counts_sa
                 (<[stat_act := n_sa + 1]> (visit_counts_sa σ)) σ);;
  σ ← gets id;
  h ← getitem (heuristic σ) stat_act;
  n_sa' ← getitem (visit_counts_sa σ) stat_act;
  modify (λ σ, set_heuristic
                 (<[stat_act := (h + (outcome - h) / of_nat n_sa')%Q]>
                    (heuristic σ)) σ).

(** [zip] stops at the end of the shorter list. *)
Definition backup (visited_states : list State)
    (performed_actions : list Action) (outcome : Q) : M unit :=
  for_each (zip visited_states performed_actions) (backup_pair outcome).

(** The [while] loop of [simulate_tree], with the two local lists as
    arguments. *)
Fixpoint simulate_tree_loop (fuel : nat) (exploration : Q)
    (visited_states : list State) (performed_actions : list Action)
  : M (list State * list Action) :=
  match fuel with
  | O => diverge
  | S fuel =>
      state_t ← current_state;
      if state_is_final state_t then ret (visited_states, performed_actions)
      else
        let visited_states := visited_states ++ [state_t] in
        tree_ ← gets tree;
        if decide (state_t ∉ tree_) then
          new_node state_t;;
          ret (visited_states, performed_actions)
        else
          action ← select_action state_t exploration;
          let performed_actions := performed_actions ++ [action] in
          child ← call (get_child_state state_t action);
          modify (set_state (Some child));;
          simulate_tree_loop fuel exploration visited_states
                             performed_actions
  end.

Definition simulate_tree (fuel : nat) : M (list State * list Action) :=
  exploration ← gets default_exp_const;
  simulate_tree_loop fuel exploration [] [].

(** One [propose_action] call followed by the move it proposes. *)
Definition default_move : M Action :=
  state_ ← current_state;
  eps ← gets epsilon;
  pol ← gets policy;
  let '(action, pol') := propose_action state_ eps pol in
  modify (set_policy pol');;
  child ← call (get_child_state state_ action);
  modify (set_state (Some child));;
  ret action.

Fixpoint simulate_default_loop (fuel : nat) : M unit :=
  match fuel with
  | O => diverge
  | S fuel =>
      state_ ← current_state;
      if state_is_final state_ then ret tt
      else default_move;; simulate_default_loop fuel
  end.

(** Python's [True] and [False] in arithmetic. *)
Definition of_bool (b : bool) : Q := if b then 1%Q else 0%Q.

Definition simulate_default (fuel : nat) : M (Q * option Action) :=
  state_ ← current_state;
  first_action ← (if state_is_final state_ then ret None
                  else a ← default_move; ret (Some a));
  simulate_default_loop fuel;;
  state_ ← current_state;
  ret (of_bool (winner_is_p0 state_), first_action).

Definition simulate (fuel : nat) (root_state : State) : M unit :=
  modify (set_state (Some root_state));;
  '(visited_states, performed_actions) ← simulate_tree fuel;
  '(outcome, first_action) ← simulate_default fuel;
  let performed_actions :=
    match first_action with
    | Some a => performed_actions ++ [a]
    | None => performed_actions
    end in
  backup visited_states performed_actions outcome.

(** [acc += w * np.array(action)] on one-dimensional arrays: shapes
    must agree, except that an array of length one is broadcast. *)
Definition np_iadd_scaled (acc : list xfloat) (w : xfloat) (action : Action)
  : result (list xfloat) :=
  let term := map (λ z, xmul w (Fin (inject_Z z))) action in
  if decide (length term = length acc) then Ok (zip_with xadd acc term)
  else match term with
       | [t] => Ok (map (λ x, xadd x t) acc)
       | _ => Raise ValueError
       end.

Fixpoint accumulate (acc : list xfloat) (ws : list xfloat)
    (actions : list Action) : result (list xfloat) :=
  match ws, actions with
  | w :: ws', a :: actions' =>
      rbind (np_iadd_scaled acc w a) (λ acc', accumulate acc' ws' actions')
  | _, _ => Ok acc
  end.

Definition np_sum (v : list xfloat) : xfloat := foldl xadd (Fin 0%Q) v.

Definition get_visited_distribution (state_ : State) : M (list xfloat) :=
  let legal_actions := get_legal_actions state_ in
  σ ← gets id;
  visited_vector ← map_each legal_actions
                     (λ action, getitem (visit_counts_sa σ) (state_, action));
  let visited_vector := map (λ n, Fin (of_nat n)) visited_vector in
  let total := np_sum visited_vector in
  let visited_vector := map (λ x, xdiv x total) visited_vector in
  match legal_actions with
  | [] => raise IndexError
  | first :: _ =>
      let action_visited := replicate (length first) (Fin 0%Q) in
      call (accumulate action_visited visited_vector legal_actions)
  end.

(** [for _ in range(n): self.simulate(root_state)] *)
Fixpoint simulate_times (n fuel : nat) (root_state : State) : M unit :=
  match n with
  | O => ret tt
  | S n => simulate fuel root_state;; simulate_times n fuel root_state
  end.

Definition mc_tree_search (fuel : nat) (root_state : State)
  : M (Action * list xfloat) :=
  n ← gets simulations;
  simulate_times n fuel root_state;;
  modify (set_state (Some root_state));;
  action ← select_action root_state 0%Q;
  distribution ← get_visited_distribution root_state;
  ret (action, distribution).

(** *** The score of an action *)

(** The arithmetic of [action_value] on the values it has looked up. *)
Definition score (p0 : bool) (c h : Q) (n_s n_sa : nat) : xfloat :=
  let bonus :=
    xmul (Fin c)
         (np_sqrt (xdiv (np_log n_s) (Fin (of_nat n_sa + 1)))) in
  if p0 then xadd (Fin h) bonus else xsub (Fin h) bonus.



(** *** Reading the statistics *)

Definition count_s (σ : mcts) (s : State) : nat :=
  default 0 (visit_counts_s σ !! s).
Definition count_sa (σ : mcts) (s : State) (a : Action) : nat :=
  default 0 (visit_counts_sa σ !! (s, a)).
Definition value_sa (σ : mcts) (s : State) (a : Action) : Q :=
  default 0%Q (heuristic σ !! (s, a)).

(** The sum of [visit_counts_sa] over the legal actions of [s], each
    action counted once. *)
Definition sum_sa (σ : mcts) (s : State) : nat :=
  sum_list (map (count_sa σ s) (remove_dups (get_legal_actions s))).

(** The statistics of [s] are initialised: [s] is in the tree and has
    its entry in every dictionary. *)
Definition expanded (σ : mcts) (s : State) : Prop :=
  s ∈ tree σ ∧ is_Some (visit_counts_s σ !! s) ∧
  ∀ a, a ∈ get_legal_actions s →
       is_Some (visit_counts_sa σ !! (s, a)) ∧
       is_Some (heuristic σ !! (s, a)).

(** The three writes of one turn of the loop of [backup]. *)
Definition credited (v : Q) (k : State * Action) (n_s n_sa : nat) (h : Q)
    (σ : mcts) : mcts :=
  set_heuristic
    (<[k := (h + (v - h) / of_nat (n_sa + 1))%Q]> (heuristic σ))
    (set_visit_counts_sa (<[k := n_sa + 1]> (visit_counts_sa σ))
       (set_visit_counts_s (<[k.1 := n_s + 1]> (visit_counts_s σ)) σ)).



(** The four dictionaries agree. *)
Definition same_stats (σ σ' : mcts) : Prop :=
  tree σ' = tree σ ∧ heuristic σ' = heuristic σ ∧
  visit_counts_s σ' = visit_counts_s σ ∧
  visit_counts_sa σ' = visit_counts_sa σ.

(** The dictionaries have exactly the keys of the expanded states. *)
Definition keys_ok (σ : mcts) : Prop :=
  (∀ s, is_Some (visit_counts_s σ !! s) ↔ s ∈ tree σ) ∧
  (∀ s a, is_Some (visit_counts_sa σ !! (s, a)) ↔
          s ∈ tree σ ∧ a ∈ get_legal_actions s) ∧
  (∀ s a, is_Some (heuristic σ !! (s, a)) ↔
          s ∈ tree σ ∧ a ∈ get_legal_actions s).

Definition counts_ok (σ : mcts) : Prop :=
  ∀ s n, visit_counts_s σ !! s = Some n → n = sum_sa σ s.

Definition bounded (σ : mcts) : Prop :=
  ∀ k h, heuristic σ !! k = Some h → (0 <= h)%Q ∧ (h <= 1)%Q.

(** No state has been expanded and not credited since. *)
Definition visited (σ : mcts) : Prop :=
  ∀ s n, visit_counts_s σ !! s = Some n → 1 ≤ n.

(** Every argument [np.log] received between [σ] and [σ'] is at
    least 1. *)
Definition logs_from (σ σ' : mcts) : Prop :=
  ∃ new, log_args σ' = log_args σ ++ new ∧ Forall (λ n, 1 ≤ n) new.

Definition same_tree (σ σ' : mcts) : Prop := tree σ' = tree σ.

(** The tree has kept its states and gained at most [n]. *)
Definition grows_by (n : nat) (σ σ' : mcts) : Prop :=
  tree σ ⊆ tree σ' ∧ size (tree σ') ≤ size (tree σ) + n.

(** What a method that only reads the statistics does to the object. *)
Definition reads (σ σ' : mcts) : Prop :=
  same_stats σ σ' ∧ simulations σ' = simulations σ ∧
  (visited σ → logs_from σ σ').

(** What holds of the statistics between two simulations. *)
Definition inv (σ : mcts) : Prop := keys_ok σ ∧ counts_ok σ ∧ visited σ.

(** [σ'] has the property [I] if [σ] has it. *)
Definition preserves (I : mcts → Prop) : relation mcts :=
  λ σ σ', I σ → I σ'.

(** [np.log] has not been called between [σ] and [σ']. *)
Definition quiet (σ σ' : mcts) : Prop := log_args σ' = log_args σ.

(** What a method that reads the statistics without calling [np.log]
    does to the object. *)
Definition idles (σ σ' : mcts) : Prop :=
  same_stats σ σ' ∧ simulations σ' = simulations σ ∧ quiet σ σ'.

(** [steps R m]: whatever [m] does and however it ends, it takes the
    object to one related by [R]. *)
Definition steps {A} (R : relation mcts) (m : M A) : Prop :=
  ∀ σ r σ', m σ = (r, σ') → R σ σ'.

(** *** Episodes *)

(** The search objects met in one episode: after the reset, any number
    of simulations and of decisions ([mc_tree_search]) that returned. *)
Inductive episode : mcts → Prop :=
  | episode_reset σ0 :
      episode (initialize_variables σ0).2
  | episode_simulate σ fuel root σ' :
      episode σ →
      simulate fuel root σ = (Ok tt, σ') →
      episode σ'
  | episode_search σ fuel root res σ' :
      episode σ →
      mc_tree_search fuel root σ = (Ok res, σ') →
      episode σ'.

(** The calls that write statistics, for histories that are not
    restricted to calls that return. *)
Inductive op : Type :=
  | OpReset
  | OpNewNode (s : State)
  | OpBackup (visited_states : list State)
             (performed_actions : list Action) (outcome : Q)
  | OpSimulate (fuel : nat) (root : State)
  | OpSearch (fuel : nat) (root : State).

Definition run_op (o : op) : M unit :=
  match o with
  | OpReset => initialize_variables
  | OpNewNode s => new_node s
  | OpBackup vs acts v => backup vs acts v
  | OpSimulate fuel root => simulate fuel root
  | OpSearch fuel root => mc_tree_search fuel root;; ret tt
  end.

(** The object after a history, whether its calls returned or raised
    (a caller that catches the exception goes on with the object as
    the failed call left it). *)
Definition after (ops : list op) (σ : mcts) : mcts :=
  foldl (λ σ o, (run_op o σ).2) σ ops.




(** A path of the game: each pair is a state with an action legal in
    it, and the next state is the child [get_child_state] returns. *)
Inductive game_path : State → list (State * Action) → State → Prop :=
  | game_path_nil s : game_path s [] s
  | game_path_cons s a s' path sf :
      a ∈ get_legal_actions s →
      get_child_state s a = Ok s' →
      game_path s' path sf →
      game_path s ((s, a) :: path) sf.

(** Every entry [select_action] looks up for [s] is there. *)
Definition keyed (σ : mcts) (s : State) : Prop :=
  is_Some (visit_counts_s σ !! s) ∧
  ∀ a, a ∈ get_legal_actions s →
       is_Some (visit_counts_sa σ !! (s, a)) ∧
       is_Some (heuristic σ !! (s, a)).

(** The outcome of a backup is the win indicator of player 0. *)
Definition outcome_in_range (o : op) : Prop :=
  match o with
  | OpBackup _ _ v => (0 <= v)%Q ∧ (v <= 1)%Q
  | _ => True
  end.

End MCTS.

Arguments mcts State {_ _} Policy.
Arguments M State {_ _} Policy A.

(** ** A small simworld to run the search on

    [GameNim] hands lists to a search that hashes its states and takes
    [len] of its actions; to run [MonteCarloTreeSearch] on concrete
    inputs this section provides a subtraction game of the shape the
    search expects: states are pairs (pieces left, player to move), an
    action is a one-hot vector over the takes 1 and 2, and the game is
    over when no piece is left. *)

Module Demo.

Definition position : Type := nat * bool.

Definition take1 : list Z := [1; 0]%Z.
Definition take2 : list Z := [0; 1]%Z.

Definition legal (s : position) : list (list Z) :=
  match s.1 with
  | 0 => []
  | 1 => [take1]
  | _ => [take1; take2]
  end.

Definition child (s : position) (a : list Z) : result position :=
  if decide (a = take1) then
    if decide (1 ≤ s.1) then Ok (s.1 - 1, negb s.2) else Raise ValueError
  else if decide (a = take2) then
    if decide (2 ≤ s.1) then Ok (s.1 - 2, negb s.2) else Raise ValueError
  else Raise ValueError.

(** [s.2] is true when player 0 is to move. *)
#[global] Instance board : SimWorld position := {|
  get_legal_actions := legal;
  get_child_state := child;
  state_is_final s := bool_decide (s.1 = 0);
  p0_to_play s := s.2;
  winner_is_p0 s := bool_decide (s.1 = 0) && negb s.2;
|}.

(** A policy that alternates between the two takes; its state is the
    number of proposals made so far. *)
#[global] Instance alternate : DefaultPolicy position nat := {|
  propose_action s _ n :=
    (if Nat.even n then take1
     else if decide (2 ≤ s.1) then take2 else take1, S n);
|}.

(** Coarse rational stand-ins for [np.log] and [np.sqrt]. *)
Definition ln_q (n : nat) : Q :=
  (inject_Z (Z.log2 (Z.of_nat n)) * (7 # 10))%Q.
Definition sqrt_q (q : Q) : Q :=
  (inject_Z (Z.sqrt (Qfloor (q * 10000))) / 100)%Q.

(** A freshly constructed search object with [simulations = m]. *)
Definition fresh (m : nat) : mcts position nat :=
  Mcts (1 # 10) 1 m None ∅ ∅ ∅ ∅ 0 [].

Definition root : position := (3, true).

(** The root expanded and not yet credited. *)
Definition expanded_root : mcts position nat := (new_node root (fresh 0)).2.

(** A decision of four simulations on a fresh object. *)
Definition decision : result (list Z * list xfloat) * mcts position nat :=
  mc_tree_search ln_q sqrt_q 20 root (fresh 4).

Definition value_of {A} (d : A) (r : result A) : A :=
  match r with Ok a => a | _ => d end.

(** A history that mixes a simulation, a backup and a decision. *)
Definition history : list (op (State := position)) :=
  [OpSimulate 20 root; OpBackup [root] [take1] (1 # 2); OpSearch 20 root].


End Demo.

(** ** Properties of [GameNim] *)

Module GameNimFacts.
Import GameNim.

#[global] Instance pyseq_eq_dec : EqDecision pyseq.
Proof. solve_decision. Defined.

#[global] Instance pyseq_countable : Countable pyseq.
Proof.
  refine (inj_countable'
            (λ s, match s with
                  | PyList xs => inl xs
                  | PyTuple xs => inr xs
                  end)
            (λ x, match x with
                  | inl xs => PyList xs
                  | inr xs => PyTuple xs
                  end) _).
  by intros [].
Defined.

Lemma py_list_index_raises xs v e :
  py_list_index xs v = Raise e → e = ValueError.
Proof.
  induction xs as [|x xs IH]; simpl; [congruence|].
  destruct (x =? v)%Z; [congruence|].
  destruct (py_list_index xs v); naive_solver.
Qed.

Lemma py_list_index_fuel xs v : py_list_index xs v ≠ OutOfFuel.
Proof.
  induction xs as [|x xs IH]; simpl; [congruence|].
  destruct (x =? v)%Z; [congruence|].
  destruct (py_list_index xs v); congruence.
Qed.

Lemma get_num_discs_cases st :
  (∃ n, get_num_discs_from_one_hot st = Ok n ∧ (0 ≤ n)%Z) ∨
  get_num_discs_from_one_hot st = Raise ValueError.
Proof.
  unfold get_num_discs_from_one_hot.
  destruct (py_list_index (items (but_last st)) 1) as [i|e|] eqn:E; simpl.
  - left. exists (Z.of_nat i). split; [done|lia].
  - right. by rewrite (py_list_index_raises _ _ _ E).
  - by apply py_list_index_fuel in E.
Qed.

Lemma py_setitem_nonneg {A} (xs : list A) (i : Z) (v : A) :
  (0 ≤ i < Z.of_nat (length xs))%Z →
  py_setitem xs i v = Ok (<[Z.to_nat i := v]> xs).
Proof.
  intros Hi. unfold py_setitem.
  rewrite (proj2 (Z.ltb_ge i 0)) by lia. cbv zeta iota.
  rewrite (proj2 (Z.ltb_ge i 0)) by lia.
  rewrite (proj2 (Z.leb_gt _ i)) by lia. done.
Qed.

Lemma py_index_first {A} (x : A) xs : py_index (x :: xs) 0 = Ok x.
Proof.
  unfold py_index. simpl length.
  rewrite (proj2 (Z.ltb_ge 0 0)) by lia. cbv zeta iota.
  rewrite (proj2 (Z.ltb_ge 0 0)) by lia.
  rewrite (proj2 (Z.leb_gt _ 0)) by lia. done.
Qed.

Lemma py_index_last {A} (xs : list A) (x : A) :
  py_index (xs ++ [x]) (-1) = Ok x.
Proof.
  unfold py_index. rewrite length_app. simpl.
  rewrite (proj2 (Z.ltb_ge (Z.of_nat (length xs + 1) + -1) 0)) by lia.
  rewrite (proj2 (Z.leb_gt _ _)) by lia. simpl.
  replace (Z.to_nat (Z.of_nat (length xs + 1) + -1)) with (length xs + 0)
    by lia.
  by rewrite lookup_app_r, Nat.add_comm, Nat.add_sub by lia.
Qed.

(** The index of the [1] in a one-hot vector. *)
Lemma py_list_index_one_hot (n k : nat) :
  k < n → py_list_index (<[k := 1%Z]> (replicate n 0%Z)) 1 = Ok k.
Proof.
  revert k. induction n as [|n IH]; intros k Hk; [lia|].
  destruct k as [|k]; simpl; [done|].
  rewrite IH; [done|lia].
Qed.

Lemma removelast_snoc {A} (xs : list A) x : removelast (xs ++ [x]) = xs.
Proof. by rewrite removelast_app, app_nil_r. Qed.

(** Encoding [(p, pid)] on a board of [N] pieces, and reading the
    number of pieces back. *)
Lemma one_hot_ok g (p pid : Z) :
  (0 ≤ p ≤ num_pieces g)%Z →
  let oh := <[Z.to_nat p := 1%Z]> (replicate (Z.to_nat (num_pieces g + 1)) 0%Z) in
  get_one_hot_from_state g (PyTuple [p; pid]) = Ok (PyList (oh ++ [pid])) ∧
  get_num_discs_from_one_hot (PyList (oh ++ [pid])) = Ok p.
Proof.
  intros Hp oh. split.
  - unfold get_one_hot_from_state; simpl.
    rewrite py_setitem_nonneg; [done|].
    rewrite length_replicate. lia.
  - unfold get_num_discs_from_one_hot; simpl.
    rewrite removelast_snoc. subst oh.
    rewrite py_list_index_one_hot by lia. simpl. f_equal. lia.
Qed.

Lemma elem_of_range1 (a hi : Z) : a ∈ range1 hi ↔ (1 ≤ a ≤ hi)%Z.
Proof.
  unfold range1. rewrite list_elem_of_fmap. split.
  - intros (i & -> & Hi). apply elem_of_seq in Hi. lia.
  - intros Ha. exists (Z.to_nat (a - 1)). split; [lia|].
    apply elem_of_seq. lia.
Qed.

Lemma one_hot_head (n k : nat) (pid : Z) :
  0 < n →
  py_index (<[k := 1%Z]> (replicate n 0%Z) ++ [pid]) 0
  = Ok (if decide (k = 0) then 1%Z else 0%Z).
Proof.
  intros Hn. destruct n as [|n]; [lia|].
  destruct k; simpl; apply py_index_first.
Qed.

(** *** C6 *)

(** C6. Whatever the state, an action below 1, above the maximum take,
    or above the number of pieces left makes [get_child_state] raise
    [ValueError]; as a call made by the search it leaves the search
    object, hence the tree and every counter and action value, as it
    was. *)
Theorem get_child_state_invalid_action
    (g : t) (st : pyseq) (a : Z) (Policy : Type) (σ : mcts pyseq Policy) :
  (a < 1)%Z ∨ (max_take g < a)%Z ∨
    (∃ n, get_num_discs_from_one_hot st = Ok n ∧ (n < a)%Z) →
  get_child_state g st a = Raise ValueError ∧
  call (get_child_state g st a) σ = (Raise ValueError, σ).
Proof.
  intros Ha.
  assert (get_child_state g st a = Raise ValueError) as E.
  { unfold get_child_state.
    destruct (get_num_discs_cases st) as [(n & E & Hn)|E]; rewrite E;
      [|done].
    simpl.
    destruct (Z.ltb_spec a 1); [done|].
    destruct (Z.ltb_spec (max_take g) a); [done|]. simpl.
    destruct (Z.ltb_spec n a); [done|].
    destruct Ha as [?|[?|(n' & Hn' & ?)]]; [lia|lia|].
    rewrite E in Hn'. injection Hn' as <-. lia. }
  split; [done|]. unfold call. by rewrite E.
Qed.

Lemma get_child_state_invalid_action_witness :
  get_child_state {| num_pieces := 10; max_take := 2 |}
    (PyList [0; 0; 0; 1; 0]%Z) 3
  = Raise ValueError.
Proof.
  apply (get_child_state_invalid_action
           {| num_pieces := 10; max_take := 2 |}
           (PyList [0; 0; 0; 1; 0]%Z) 3 unit
           (Mcts (1 # 10) 1 500 None ∅ ∅ ∅ ∅ tt [])).
  right. left. simpl. lia.
Defined.

(** *** C7 *)

(** C7. On the one-hot encoding [s] of [(p, pid)] and a legal action
    [a], [get_child_state] returns the plain pair [(p - a, 1 - pid)];
    on that pair [state_is_final] holds exactly when one piece is left
    (on [s] itself: when none is left), and
    [get_num_discs_from_one_hot] returns 0 when one piece is left and
    raises otherwise (on [s] itself it returns [p]). *)
Theorem child_state_leaves_one_hot
    (g : t) (p pid a : Z) (s : pyseq) (acts : list Z) :
  (0 ≤ p ≤ num_pieces g)%Z →
  get_one_hot_from_state g (PyTuple [p; pid]) = Ok s →
  get_legal_actions g s = Ok acts →
  a ∈ acts →
  (∃ oh, s = PyList (oh ++ [pid]) ∧
         length (oh ++ [pid]) = Z.to_nat (num_pieces g + 2)) ∧
  get_num_discs_from_one_hot s = Ok p ∧
  get_child_state g s a = Ok (PyTuple [p - a; 1 - pid])%Z ∧
  state_is_final (PyTuple [p - a; 1 - pid])%Z = Ok (p - a =? 1)%Z ∧
  state_is_final s = Ok (p =? 0)%Z ∧
  get_num_discs_from_one_hot (PyTuple [p - a; 1 - pid])%Z
  = (if (p - a =? 1)%Z then Ok 0%Z else Raise ValueError).
Proof.
  intros Hp Hs Hacts Ha.
  destruct (one_hot_ok g p pid Hp) as [Hoh Hnum].
  rewrite Hoh in Hs. injection Hs as <-.
  unfold get_legal_actions in Hacts. rewrite Hnum in Hacts. simpl in Hacts.
  injection Hacts as <-. apply elem_of_range1 in Ha.
  split; [|split; [done|split; [|split; [|split]]]].
  - eexists. split; [done|].
    rewrite length_app, length_insert, length_replicate. simpl. lia.
  - unfold get_child_state. rewrite Hnum. simpl.
    destruct (Z.ltb_spec a 1); [lia|].
    destruct (Z.ltb_spec (max_take g) a); [lia|]. simpl.
    destruct (Z.ltb_spec p a); [lia|].
    by rewrite py_index_last.
  - unfold state_is_final. simpl items. by rewrite py_index_first.
  - unfold state_is_final. simpl items.
    rewrite one_hot_head by lia. simpl. f_equal.
    destruct (decide (Z.to_nat p = 0)); destruct (Z.eqb_spec p 0);
      try done; lia.
  - unfold get_num_discs_from_one_hot. simpl.
    by destruct (p - a =? 1)%Z.
Qed.

Lemma child_state_leaves_one_hot_witness :
  get_child_state {| num_pieces := 4; max_take := 2 |}
    (PyList [0; 0; 0; 1; 0; 0]%Z) 2
  = Ok (PyTuple [1; 1]%Z).
Proof.
  apply (child_state_leaves_one_hot {| num_pieces := 4; max_take := 2 |}
           3 0 2 (PyList [0; 0; 0; 1; 0; 0]%Z) [1; 2]%Z).
  - simpl. lia.
  - reflexivity.
  - reflexivity.
  - set_solver.
Defined.

(** *** Further properties of [GameNim] *)

Lemma py_setitem_negative {A} (xs : list A) (i : Z) (v : A) :
  (- Z.of_nat (length xs) ≤ i < 0)%Z →
  py_setitem xs i v = Ok (<[Z.to_nat (Z.of_nat (length xs) + i) := v]> xs).
Proof.
  intros Hi. unfold py_setitem.
  rewrite (proj2 (Z.ltb_lt i 0)) by lia. cbv zeta iota.
  rewrite (proj2 (Z.ltb_ge (Z.of_nat (length xs) + i) 0)) by lia.
  rewrite (proj2 (Z.leb_gt _ _)) by lia. done.
Qed.

Lemma py_setitem_out_of_range {A} (xs : list A) (i : Z) (v : A) :
  (i < - Z.of_nat (length xs) ∨ Z.of_nat (length xs) ≤ i)%Z →
  py_setitem xs i v = Raise IndexError.
Proof.
  intros Hi. unfold py_setitem.
  destruct (Z.ltb_spec i 0); cbv zeta iota.
  - rewrite (proj2 (Z.ltb_lt (Z.of_nat (length xs) + i) 0)) by lia. done.
  - rewrite (proj2 (Z.ltb_ge i 0)) by lia.
    rewrite (proj2 (Z.leb_le _ _)) by lia. done.
Qed.

Lemma py_index_last_nonempty {A} (xs : list A) :
  xs ≠ [] → ∃ x, py_index xs (-1) = Ok x.
Proof.
  intros Hne. destruct (exists_last Hne) as (xs' & x & ->).
  exists x. apply py_index_last.
Qed.

Lemma py_list_index_nonempty xs v i : py_list_index xs v = Ok i → xs ≠ [].
Proof. by destruct xs. Qed.

Lemma num_discs_last st n :
  get_num_discs_from_one_hot st = Ok n →
  (0 ≤ n)%Z ∧ ∃ pid, py_index (items st) (-1) = Ok pid.
Proof.
  unfold get_num_discs_from_one_hot. intros E.
  destruct (py_list_index (items (but_last st)) 1) as [i| |] eqn:Ei;
    simpl in E; try done.
  injection E as <-. split; [lia|].
  apply py_index_last_nonempty. apply py_list_index_nonempty in Ei.
  destruct st as [xs|xs]; simpl in *; by destruct xs.
Qed.

(** What [get_child_state] does once the number of discs is read. *)
Lemma get_child_state_cases g st a n :
  get_num_discs_from_one_hot st = Ok n →
  (a ∈ range1 (Z.min n (max_take g)) ∧
   ∃ pid, py_index (items st) (-1) = Ok pid ∧
          get_child_state g st a = Ok (PyTuple [n - a; 1 - pid])%Z) ∨
  (a ∉ range1 (Z.min n (max_take g)) ∧
   get_child_state g st a = Raise ValueError).
Proof.
  intros En. destruct (num_discs_last st n En) as (Hn & pid & Hpid).
  unfold get_child_state. rewrite En. simpl. rewrite elem_of_range1.
  destruct (Z.ltb_spec a 1); [right; split; [lia|done]|].
  destruct (Z.ltb_spec (max_take g) a); [right; split; [lia|done]|].
  simpl. destruct (Z.ltb_spec n a); [right; split; [lia|done]|].
  left. split; [lia|]. exists pid. by rewrite Hpid.
Qed.

Lemma one_hot_accessors (g : t) (p pid : Z) :
  (0 ≤ p ≤ num_pieces g)%Z →
  ∃ s, get_one_hot_from_state g (PyTuple [p; pid]) = Ok s ∧
       length (items s) = Z.to_nat (num_pieces g + 2) ∧
       get_num_discs_from_one_hot s = Ok p ∧
       p0_to_play s = Ok (pid =? 0)%Z ∧
       state_is_final s = Ok (p =? 0)%Z ∧
       winner_is_p0 s = Ok ((p =? 0)%Z && negb (pid =? 0)%Z).
Proof.
  intros Hp. destruct (one_hot_ok g p pid Hp) as [Hoh Hnum].
  eexists. split; [exact Hoh|].
  assert (state_is_final
            (PyList (<[Z.to_nat p := 1%Z]>
                       (replicate (Z.to_nat (num_pieces g + 1)) 0%Z)
                     ++ [pid])) = Ok (p =? 0)%Z) as Hfin.
  { unfold state_is_final. simpl items. rewrite one_hot_head by lia.
    simpl. f_equal.
    destruct (decide (Z.to_nat p = 0)); destruct (Z.eqb_spec p 0);
      try done; lia. }
  assert (p0_to_play
            (PyList (<[Z.to_nat p := 1%Z]>
                       (replicate (Z.to_nat (num_pieces g + 1)) 0%Z)
                     ++ [pid])) = Ok (pid =? 0)%Z) as Hp0.
  { unfold p0_to_play. simpl items. by rewrite py_index_last. }
  split; [|split; [done|split; [done|split; [done|]]]].
  - simpl. rewrite length_app, length_insert, length_replicate. simpl. lia.
  - unfold winner_is_p0. rewrite Hfin. simpl.
    destruct (p =? 0)%Z; [|done]. by rewrite Hp0.
Qed.

(** X1. Encoding a count of discs between 0 and [num_pieces] gives a
    list of [num_pieces + 2] entries from which every accessor reads the
    pair back: the number of discs, whose turn it is, whether the game
    is over and whether player 0 has won. *)
Theorem one_hot_round_trip (g : t) (p pid : Z) :
  (0 ≤ p ≤ num_pieces g)%Z →
  ∃ s, get_one_hot_from_state g (PyTuple [p; pid]) = Ok s ∧
       length (items s) = Z.to_nat (num_pieces g + 2) ∧
       get_num_discs_from_one_hot s = Ok p ∧
       p0_to_play s = Ok (pid =? 0)%Z ∧
       state_is_final s = Ok (p =? 0)%Z ∧
       winner_is_p0 s = Ok ((p =? 0)%Z && negb (pid =? 0)%Z).
Proof. apply one_hot_accessors. Qed.

Lemma one_hot_round_trip_witness :
  ∃ s, get_one_hot_from_state {| num_pieces := 4; max_take := 2 |}
         (PyTuple [0; 1]%Z) = Ok s ∧
       winner_is_p0 s = Ok true.
Proof.
  destruct (one_hot_round_trip {| num_pieces := 4; max_take := 2 |} 0 1)
    as (s & Hs & _ & _ & _ & _ & Hw); [simpl; lia|].
  by exists s.
Defined.

(** X2. The disc count is used as a Python index into a list of
    [num_pieces + 1] zeros: a count beyond either end raises
    [IndexError], and a negative count within range is taken from the
    end, so that the state decodes to a different number of discs. *)
Theorem one_hot_index_edges (g : t) (p pid : Z) :
  let len := Z.of_nat (Z.to_nat (num_pieces g + 1)) in
  ((p < - len ∨ len ≤ p)%Z →
   get_one_hot_from_state g (PyTuple [p; pid]) = Raise IndexError) ∧
  ((- len ≤ p < 0)%Z →
   ∃ s, get_one_hot_from_state g (PyTuple [p; pid]) = Ok s ∧
        get_num_discs_from_one_hot s = Ok (len + p)%Z).
Proof.
  intros len. split.
  - intros Hp. unfold get_one_hot_from_state. simpl.
    rewrite py_setitem_out_of_range; [done|].
    rewrite length_replicate. exact Hp.
  - intros Hp. unfold get_one_hot_from_state. simpl.
    rewrite py_setitem_negative by (rewrite length_replicate; exact Hp).
    simpl. eexists. split; [done|].
    unfold get_num_discs_from_one_hot. simpl.
    rewrite removelast_snoc, length_replicate.
    rewrite py_list_index_one_hot by (subst len; lia).
    simpl. f_equal. subst len. lia.
Qed.

Lemma one_hot_index_edges_witness :
  get_one_hot_from_state {| num_pieces := 4; max_take := 2 |}
    (PyTuple [5; 0]%Z) = Raise IndexError ∧
  ∃ s, get_one_hot_from_state {| num_pieces := 4; max_take := 2 |}
         (PyTuple [-1; 0]%Z) = Ok s ∧
       get_num_discs_from_one_hot s = Ok 4%Z.
Proof.
  split.
  - apply (one_hot_index_edges {| num_pieces := 4; max_take := 2 |} 5 0).
    simpl. lia.
  - apply (one_hot_index_edges {| num_pieces := 4; max_take := 2 |} (-1) 0).
    simpl. lia.
Defined.

(** X3. A game with a non-negative number of pieces has an initial
    state: all the pieces, player 0 to move, final only when there is no
    piece, and of size [num_pieces + 2]; with a negative number of
    pieces [get_initial_state] and [get_state_size] raise
    [IndexError]. *)
Theorem initial_state_exists (g : t) :
  ((0 ≤ num_pieces g)%Z →
   ∃ s, get_initial_state g = Ok s ∧
        get_state_size g = Ok (num_pieces g + 2)%Z ∧
        get_num_discs_from_one_hot s = Ok (num_pieces g) ∧
        p0_to_play s = Ok true ∧
        state_is_final s = Ok (num_pieces g =? 0)%Z) ∧
  ((num_pieces g < 0)%Z →
   get_initial_state g = Raise IndexError ∧
   get_state_size g = Raise IndexError).
Proof.
  split.
  - intros HN.
    destruct (one_hot_accessors g (num_pieces g) 0)
      as (s & Hs & Hlen & Hnum & Hp0 & Hfin & _); [lia|].
    exists s. unfold get_state_size, get_initial_state. rewrite Hs. simpl.
    split; [done|]. split; [f_equal; lia|]. done.
  - intros HN.
    assert (get_initial_state g = Raise IndexError) as E.
    { unfold get_initial_state, get_one_hot_from_state. simpl.
      rewrite py_setitem_out_of_range; [done|].
      rewrite length_replicate. lia. }
    split; [done|]. unfold get_state_size. by rewrite E.
Qed.

Lemma initial_state_exists_witness :
  get_state_size {| num_pieces := 10; max_take := 2 |} = Ok 12%Z ∧
  get_state_size {| num_pieces := -1; max_take := 2 |} = Raise IndexError.
Proof.
  split.
  - destruct (initial_state_exists {| num_pieces := 10; max_take := 2 |})
      as [H _].
    destruct H as (s & _ & Hsize & _); [simpl; lia|]. exact Hsize.
  - destruct (initial_state_exists {| num_pieces := -1; max_take := 2 |})
      as [_ H].
    destruct H as [_ Hsize]; [simpl; lia|]. exact Hsize.
Defined.

(** X4. On every state, the actions [get_child_state] accepts are
    exactly the actions [get_legal_actions] lists. *)
Theorem legal_iff_accepted (g : t) (st : pyseq) (a : Z) :
  (∃ child, get_child_state g st a = Ok child) ↔
  (∃ acts, get_legal_actions g st = Ok acts ∧ a ∈ acts).
Proof.
  destruct (get_num_discs_cases st) as [(n & En & Hn)|En].
  - unfold get_legal_actions. rewrite En. simpl.
    destruct (get_child_state_cases g st a n En)
      as [(Hin & pid & _ & ->)|(Hnin & ->)].
    + split; [|by eauto]. intros _. by eexists.
    + split; [by intros [? ?]|]. intros (acts & [= <-] & Hin). done.
  - unfold get_child_state, get_legal_actions. rewrite En. simpl.
    split; [by intros [? ?]|by intros (? & ? & _)].
Qed.

Lemma child_pairs_legal g st n (acts : list Z) :
  get_num_discs_from_one_hot st = Ok n →
  (∀ a, a ∈ acts → a ∈ range1 (Z.min n (max_take g))) →
  ∃ pairs, child_pairs g st acts = Ok pairs ∧ pairs.*1 = acts.
Proof.
  intros En. induction acts as [|a acts IH]; intros Hall.
  { by exists []. }
  destruct IH as (pairs & E & Hfst); [intros b Hb; apply Hall; by right|].
  destruct (get_child_state_cases g st a n En)
    as [(_ & pid & _ & Ea)|(Hnin & _)].
  - exists ((a, PyTuple [n - a; 1 - pid]%Z) :: pairs).
    simpl. rewrite Ea, E. simpl. split; [done|]. by f_equal.
  - exfalso. apply Hnin, Hall. by left.
Qed.

(** X5. [get_all_child_states] never returns the pairs it builds: when
    the number of discs can be read from the state it returns [None],
    without raising, and otherwise it raises [ValueError]. *)
Theorem get_all_child_states_returns_none (g : t) (st : pyseq) :
  get_all_child_states g st =
  match get_num_discs_from_one_hot st with
  | Ok _ => Ok None
  | _ => Raise ValueError
  end.
Proof.
  unfold get_all_child_states, get_legal_actions.
  destruct (get_num_discs_cases st) as [(n & En & Hn)|En]; rewrite En;
    [|done].
  simpl.
  destruct (child_pairs_legal g st n (range1 (Z.min n (max_take g))) En)
    as (pairs & -> & _); done.
Qed.

(** X6. The state [get_child_state] returns accepts no further move:
    whatever the next action, [get_child_state] raises [ValueError] on
    it, and [get_legal_actions] raises [ValueError] or lists no
    action. *)
Theorem no_second_move (g : t) (st child : pyseq) (a b : Z) :
  get_child_state g st a = Ok child →
  get_child_state g child b = Raise ValueError ∧
  (get_legal_actions g child = Ok [] ∨
   get_legal_actions g child = Raise ValueError).
Proof.
  intros E.
  destruct (get_num_discs_cases st) as [(n & En & Hn)|En].
  2:{ unfold get_child_state in E. by rewrite En in E. }
  destruct (get_child_state_cases g st a n En)
    as [(Hin & pid & _ & Ea)|(_ & Ea)]; rewrite Ea in E; [|done].
  injection E as <-.
  assert (get_num_discs_from_one_hot (PyTuple [n - a; 1 - pid])%Z
          = if (n - a =? 1)%Z then Ok 0%Z else Raise ValueError) as Ec.
  { unfold get_num_discs_from_one_hot. simpl. by destruct (n - a =? 1)%Z. }
  unfold get_child_state, get_legal_actions. rewrite Ec.
  destruct (n - a =? 1)%Z; simpl; [|by auto].
  split.
  - destruct (Z.ltb_spec b 1); [done|].
    destruct (Z.ltb_spec (max_take g) b); [done|]. simpl.
    destruct (Z.ltb_spec 0 b); [done|lia].
  - left. f_equal. unfold range1.
    replace (Z.to_nat (Z.min 0 (max_take g))) with 0 by lia. done.
Qed.

Lemma no_second_move_witness :
  get_child_state {| num_pieces := 4; max_take := 2 |} (PyTuple [1; 1]%Z) 1
  = Raise ValueError.
Proof.
  apply (no_second_move {| num_pieces := 4; max_take := 2 |}
           (PyList [0; 0; 0; 1; 0; 0]%Z) (PyTuple [1; 1]%Z) 2 1).
  reflexivity.
Defined.

(** X7. On the encoding of [p] discs the legal actions are the takes
    from 1 to the smaller of [p] and [max_take], in increasing order and
    without repetition; there is none exactly when no disc is left or
    [max_take] is below 1. *)
Theorem legal_actions_one_hot (g : t) (p pid : Z) (s : pyseq) :
  (0 ≤ p ≤ num_pieces g)%Z →
  get_one_hot_from_state g (PyTuple [p; pid]) = Ok s →
  ∃ acts, get_legal_actions g s = Ok acts ∧
          NoDup acts ∧
          (∀ a, a ∈ acts ↔ (1 ≤ a ≤ p ∧ a ≤ max_take g)%Z) ∧
          (∀ i a, acts !! i = Some a → a = (Z.of_nat i + 1)%Z) ∧
          (acts = [] ↔ (p = 0 ∨ max_take g < 1)%Z).
Proof.
  intros Hp Hs. destruct (one_hot_ok g p pid Hp) as [Hoh Hnum].
  rewrite Hoh in Hs. injection Hs as <-.
  unfold get_legal_actions. rewrite Hnum. simpl. eexists. split; [done|].
  split; [|split; [|split]].
  - unfold range1. apply NoDup_fmap_2; [|apply NoDup_seq].
    intros i j Hij. lia.
  - intros a. rewrite elem_of_range1. lia.
  - intros i a. unfold range1. rewrite list_lookup_fmap.
    destruct (seq 0 _ !! i) as [k|] eqn:Ek; [|done].
    apply lookup_seq in Ek as [-> _]. simpl. by intros [= <-].
  - unfold range1. split.
    + intros E. apply fmap_nil_inv in E.
      destruct (Z.to_nat (Z.min p (max_take g))) eqn:Em; [lia|done].
    + intros Hz. replace (Z.to_nat (Z.min p (max_take g))) with 0 by lia.
      done.
Qed.

Lemma legal_actions_one_hot_witness :
  ∃ acts, get_legal_actions {| num_pieces := 4; max_take := 2 |}
            (PyList [0; 0; 0; 1; 0; 0]%Z) = Ok acts ∧ NoDup acts.
Proof.
  destruct (legal_actions_one_hot {| num_pieces := 4; max_take := 2 |}
              3 0 (PyList [0; 0; 0; 1; 0; 0]%Z))
    as (acts & E & Hnd & _); [simpl; lia|reflexivity|].
  by exists acts.
Defined.

End GameNimFacts.

(** ** Properties of [np.argmax] and [np.argmin] on finite numbers *)

Section ArgFacts.
Variable better : xfloat → xfloat → bool.
(** [key] is the identity for argmax and the opposite for argmin. *)
Variable key : Q → Q.
Hypothesis better_fin :
  ∀ x mp, better (Fin x) (Fin mp) = true ↔ (key mp < key x)%Q.


End ArgFacts.



(** ** Weighted sums of one-hot vectors *)

Section OneHot.








Variable w : list Z → Q.
Variable m : nat.


End OneHot.

(** ** Properties of [MonteCarloTreeSearch] *)

Section MCTSFacts.
Context {State : Type} `{Countable State}.
Context {Policy : Type}.
Context {board : SimWorld State} {default_policy : DefaultPolicy State Policy}.
Context (ln_q : nat → Q) (sqrt_q : Q → Q).

Local Abbreviation mcts := (mcts State Policy).
Local Abbreviation M := (M State Policy).
Local Abbreviation select_action := (select_action ln_q sqrt_q).
Local Abbreviation action_value := (action_value ln_q sqrt_q).
Local Abbreviation simulate_tree_loop := (simulate_tree_loop ln_q sqrt_q).
Local Abbreviation simulate_tree := (simulate_tree ln_q sqrt_q).
Local Abbreviation simulate := (simulate ln_q sqrt_q).
Local Abbreviation simulate_times := (simulate_times ln_q sqrt_q).
Local Abbreviation mc_tree_search := (mc_tree_search ln_q sqrt_q).
Local Abbreviation episode := (episode ln_q sqrt_q).
Local Abbreviation run_op := (run_op ln_q sqrt_q).
Local Abbreviation after := (after ln_q sqrt_q).
Local Abbreviation steps := (@steps State _ _ Policy).
Local Abbreviation same_stats := (@same_stats State _ _ Policy).
Local Abbreviation same_tree := (@same_tree State _ _ Policy).
Local Abbreviation reads := (@reads State _ _ Policy).
Local Abbreviation grows_by := (@grows_by State _ _ Policy).
Local Abbreviation idles := (@idles State _ _ Policy).
Local Abbreviation quiet := (@quiet State _ _ Policy).
Local Abbreviation preserves := (@preserves State _ _ Policy).
Local Abbreviation inv := (@inv State _ _ Policy).

(** *** Running a computation *)

Lemma bind_run {A B} (m : M A) (k : A → M B) σ :
  (m ≫= k) σ = match m σ with
               | (Ok a, σ') => k a σ'
               | (Raise e, σ') => (Raise e, σ')
               | (OutOfFuel, σ') => (OutOfFuel, σ')
               end.
Proof. reflexivity. Qed.

Lemma getitem_run {K V} `{Countable K} (d : gmap K V) (k : K) (σ : mcts) :
  getitem d k σ = match d !! k with
                  | Some v => (Ok v, σ)
                  | None => (Raise KeyError, σ)
                  end.
Proof. unfold getitem. by destruct (d !! k). Qed.

Section Steps.
Context (R : relation mcts) `{!PreOrder R}.

Lemma steps_ret {A} (a : A) : steps R (ret a : M A).
Proof. intros σ r σ' [= <- <-]. reflexivity. Qed.

Lemma steps_raise {A} e : steps R (raise e : M A).
Proof. intros σ r σ' [= <- <-]. reflexivity. Qed.

Lemma steps_diverge {A} : steps R (diverge : M A).
Proof. intros σ r σ' [= <- <-]. reflexivity. Qed.

Lemma steps_gets {A} (f : mcts → A) : steps R (gets f).
Proof. intros σ r σ' [= <- <-]. reflexivity. Qed.

Lemma steps_call {A} (x : result A) : steps R (call x : M A).
Proof. intros σ r σ' [= <- <-]. reflexivity. Qed.

Lemma steps_getitem {K V} `{Countable K} (d : gmap K V) k :
  steps R (getitem d k : M V).
Proof.
  intros σ r σ'. rewrite getitem_run.
  destruct (d !! k); intros [= <- <-]; reflexivity.
Qed.

Lemma steps_modify f : (∀ σ, R σ (f σ)) → steps R (modify f).
Proof. intros Hf σ r σ' [= <- <-]. apply Hf. Qed.

Lemma steps_bind {A B} (m : M A) (k : A → M B) :
  steps R m → (∀ a, steps R (k a)) → steps R (m ≫= k).
Proof.
  intros Hm Hk σ r σ'. rewrite bind_run.
  destruct (m σ) as [[a|e|] σ1] eqn:E; specialize (Hm _ _ _ E).
  - intros E'. etrans; [done|]. by eapply Hk.
  - by intros [= <- <-].
  - by intros [= <- <-].
Qed.

Lemma steps_for_each {A} (l : list A) (body : A → M unit) :
  (∀ x, steps R (body x)) → steps R (for_each l body).
Proof.
  intros Hb. induction l as [|x l IH]; simpl.
  - apply steps_ret.
  - apply steps_bind; [apply Hb|done].
Qed.

Lemma steps_map_each {A B} (l : list A) (body : A → M B) :
  (∀ x, steps R (body x)) → steps R (map_each l body).
Proof.
  intros Hb. induction l as [|x l IH]; simpl.
  - apply steps_ret.
  - apply steps_bind; [apply Hb|]. intros y.
    apply steps_bind; [done|]. intros ys. apply steps_ret.
Qed.

Lemma steps_current_state : steps R current_state.
Proof.
  apply steps_bind; [apply steps_gets|].
  intros [s|]; [apply steps_ret|apply steps_raise].
Qed.
End Steps.

Lemma bind_inv {A B} (m : M A) (k : A → M B) σ r σ' :
  (m ≫= k) σ = (r, σ') →
  (∃ a σ1, m σ = (Ok a, σ1) ∧ k a σ1 = (r, σ')) ∨
  (is_ok r = false ∧ ∃ r1, is_ok r1 = false ∧ m σ = (r1, σ')).
Proof.
  rewrite bind_run. destruct (m σ) as [[a|e|] σ1].
  - intros E. left. eauto.
  - intros [= <- <-]. right. split; [done|]. by exists (Raise e).
  - intros [= <- <-]. right. split; [done|]. by exists OutOfFuel.
Qed.

Lemma bind_ok_inv {A B} (m : M A) (k : A → M B) σ b σ' :
  (m ≫= k) σ = (Ok b, σ') →
  ∃ a σ1, m σ = (Ok a, σ1) ∧ k a σ1 = (Ok b, σ').
Proof. intros E. apply bind_inv in E as [?|[? _]]; [done|discriminate]. Qed.

(** *** What each method leaves unchanged *)

#[local] Instance same_stats_preorder : PreOrder same_stats.
Proof.
  split.
  - by intros σ.
  - intros σ1 σ2 σ3 (?&?&?&?) (?&?&?&?). unfold same_stats.
    naive_solver congruence.
Qed.

#[local] Instance same_tree_preorder : PreOrder same_tree.
Proof.
  split; [by intros σ|]. unfold same_tree. intros ???; congruence.
Qed.

Lemma logs_from_refl (σ σ' : mcts) :
  log_args σ' = log_args σ → logs_from σ σ'.
Proof. intros E. exists []. by rewrite app_nil_r. Qed.

Lemma logs_from_trans (σ1 σ2 σ3 : mcts) :
  logs_from σ1 σ2 → logs_from σ2 σ3 → logs_from σ1 σ3.
Proof.
  intros (n1 & E1 & F1) (n2 & E2 & F2). exists (n1 ++ n2).
  split; [by rewrite E2, E1, app_assoc|by apply Forall_app].
Qed.

Lemma same_stats_visited (σ σ' : mcts) :
  same_stats σ σ' → visited σ → visited σ'.
Proof. intros (_&_&E&_) Hv s n. rewrite E. apply Hv. Qed.

#[local] Instance reads_preorder : PreOrder reads.
Proof.
  split.
  - intros σ. split; [reflexivity|]. split; [done|].
    intros _. by apply logs_from_refl.
  - intros σ1 σ2 σ3 (S1 & M1 & L1) (S2 & M2 & L2).
    split; [by etrans|]. split; [congruence|].
    intros Hv. eapply logs_from_trans; [by apply L1|].
    apply L2. by eapply same_stats_visited.
Qed.

#[local] Instance quiet_preorder : PreOrder quiet.
Proof. split; [by intros σ|]. unfold quiet. intros ???; congruence. Qed.

#[local] Instance idles_preorder : PreOrder idles.
Proof.
  split.
  - intros σ. split; [reflexivity|]. by split.
  - intros σ1 σ2 σ3 (S1 & M1 & L1) (S2 & M2 & L2).
    split; [by etrans|]. split; [congruence|by etrans].
Qed.

Lemma idles_reads (σ σ' : mcts) : idles σ σ' → reads σ σ'.
Proof.
  intros (S1 & M1 & L1). split; [done|]. split; [done|].
  intros _. by apply logs_from_refl.
Qed.

(** A field update that touches neither statistics, budget nor log. *)
Lemma idles_set_state (v : option State) (σ : mcts) :
  idles σ (set_state v σ).
Proof. by repeat split. Qed.

Lemma idles_set_policy (v : Policy) (σ : mcts) : idles σ (set_policy v σ).
Proof. by repeat split. Qed.

Lemma reads_set_state (v : option State) (σ : mcts) :
  reads σ (set_state v σ).
Proof. apply idles_reads, idles_set_state. Qed.

Lemma reads_tree (σ σ' : mcts) : reads σ σ' → same_tree σ σ'.
Proof. by intros ((?&_)&_). Qed.

Lemma steps_weaken {A} (R R' : relation mcts) (m : M A) :
  (∀ σ σ', R σ σ' → R' σ σ') → steps R m → steps R' m.
Proof. intros HR Hm σ r σ' E. eauto. Qed.

Lemma action_value_run p0 s c a (σ : mcts) :
  action_value p0 s c a σ =
  match heuristic σ !! (s, a) with
  | None => (Raise KeyError, σ)
  | Some h =>
      match visit_counts_s σ !! s with
      | None => (Raise KeyError, σ)
      | Some n_s =>
          let σ1 := set_log_args (log_args σ ++ [n_s]) σ in
          match visit_counts_sa σ !! (s, a) with
          | None => (Raise KeyError, σ1)
          | Some n_sa => (Ok (score ln_q sqrt_q p0 c h n_s n_sa), σ1)
          end
      end
  end.
Proof.
  unfold action_value, score.
  cbv [mbind mcts_bind bind gets getitem ret raise modify id].
  destruct (heuristic σ !! (s, a)); [|done].
  destruct (visit_counts_s σ !! s); [|done].
  by destruct (visit_counts_sa σ !! (s, a)).
Qed.

Lemma action_value_reads p0 s c a : steps reads (action_value p0 s c a).
Proof.
  intros σ r σ'. rewrite action_value_run.
  destruct (heuristic σ !! (s, a)); [|intros [= <- <-]; reflexivity].
  destruct (visit_counts_s σ !! s) as [n|] eqn:En;
    [|intros [= <- <-]; reflexivity].
  assert (reads σ (set_log_args (log_args σ ++ [n]) σ)) as Hr.
  { repeat split. intros Hv. exists [n]. split; [done|].
    apply Forall_singleton. by eapply Hv. }
  simpl. by destruct (visit_counts_sa σ !! (s, a)); intros [= <- <-].
Qed.

Lemma select_action_reads s c : steps reads (select_action s c).
Proof.
  unfold select_action.
  destruct (p0_to_play s).
  all: apply steps_bind;
    [apply _|apply steps_map_each; [apply _|apply action_value_reads]|].
  all: intros vals; apply steps_bind; [apply _|apply steps_call, _|].
  all: intros i; destruct (_ !! i);
    [apply steps_ret, _|apply steps_raise, _].
Qed.

Lemma default_move_idles : steps idles default_move.
Proof.
  unfold default_move.
  apply steps_bind; [apply _|apply steps_current_state, _|]. intros s.
  apply steps_bind; [apply _|apply steps_gets, _|]. intros eps.
  apply steps_bind; [apply _|apply steps_gets, _|]. intros pol.
  destruct (propose_action s eps pol) as [a pol'].
  apply steps_bind;
    [apply _|apply steps_modify, idles_set_policy|]. intros _.
  apply steps_bind; [apply _|apply steps_call, _|]. intros s'.
  apply steps_bind;
    [apply _|apply steps_modify, idles_set_state|]. intros _.
  apply steps_ret, _.
Qed.

Lemma simulate_default_loop_idles fuel :
  steps idles (simulate_default_loop fuel).
Proof.
  induction fuel as [|fuel IH]; simpl; [apply steps_diverge, _|].
  apply steps_bind; [apply _|apply steps_current_state, _|]. intros s.
  destruct (state_is_final s); [apply steps_ret, _|].
  apply steps_bind; [apply _|apply default_move_idles|done].
Qed.

Lemma simulate_default_idles fuel : steps idles (simulate_default fuel).
Proof.
  unfold simulate_default.
  apply steps_bind; [apply _|apply steps_current_state, _|]. intros s.
  apply steps_bind; [apply _| |].
  { destruct (state_is_final s); [apply steps_ret, _|].
    apply steps_bind; [apply _|apply default_move_idles|].
    intros a. apply steps_ret, _. }
  intros first.
  apply steps_bind; [apply _|apply simulate_default_loop_idles|]. intros _.
  apply steps_bind; [apply _|apply steps_current_state, _|]. intros s'.
  apply steps_ret, _.
Qed.

Lemma simulate_default_reads fuel : steps reads (simulate_default fuel).
Proof.
  eapply steps_weaken, simulate_default_idles. apply idles_reads.
Qed.

Lemma get_visited_distribution_idles s :
  steps idles (get_visited_distribution s).
Proof.
  unfold get_visited_distribution.
  apply steps_bind; [apply _|apply steps_gets, _|]. intros σ0.
  apply steps_bind; [apply _| |].
  { apply steps_map_each; [apply _|]. intros a. apply steps_getitem, _. }
  intros v. destruct (get_legal_actions s);
    [apply steps_raise, _|apply steps_call, _].
Qed.

Lemma get_visited_distribution_reads s :
  steps reads (get_visited_distribution s).
Proof.
  eapply steps_weaken, get_visited_distribution_idles. apply idles_reads.
Qed.

(** *** Expansion *)

(** The object after the loop of [new_node] over the actions [l]. *)
Definition zeroed (s : State) (l : list Action) (σ : mcts) : mcts :=
  foldl (λ σ a, set_heuristic (<[(s, a) := 0%Q]> (heuristic σ))
                  (set_visit_counts_sa
                     (<[(s, a) := 0]> (visit_counts_sa σ)) σ)) σ l.

Lemma for_each_zeroed (s : State) (l : list Action) (σ : mcts) :
  for_each l (λ action,
    modify (λ σ, set_visit_counts_sa
                   (<[(s, action) := 0]> (visit_counts_sa σ)) σ);;
    modify (λ σ, set_heuristic
                   (<[(s, action) := 0%Q]> (heuristic σ)) σ)) σ
  = (Ok tt, zeroed s l σ).
Proof.
  revert σ. induction l as [|a l IH]; intros σ; [done|].
  simpl. rewrite bind_run. simpl. apply IH.
Qed.

Lemma zeroed_fields s l (σ : mcts) :
  tree (zeroed s l σ) = tree σ ∧
  visit_counts_s (zeroed s l σ) = visit_counts_s σ ∧
  state (zeroed s l σ) = state σ ∧
  simulations (zeroed s l σ) = simulations σ ∧
  log_args (zeroed s l σ) = log_args σ.
Proof.
  revert σ. induction l as [|a l IH]; intros σ; [done|].
  simpl. destruct (IH (set_heuristic (<[(s, a) := 0%Q]> (heuristic σ))
                  (set_visit_counts_sa
                     (<[(s, a) := 0]> (visit_counts_sa σ)) σ)))
    as (->&->&->&->&->). done.
Qed.

Lemma zeroed_counts s l (σ : mcts) k :
  visit_counts_sa (zeroed s l σ) !! k =
  if decide (k.1 = s ∧ k.2 ∈ l) then Some 0 else visit_counts_sa σ !! k.
Proof.
  revert σ. induction l as [|a l IH]; intros σ; simpl.
  - case_decide as Hk; [|done]. destruct Hk as [_ Hk]. by inv Hk.
  - rewrite IH. simpl. destruct k as [s' a']. simpl.
    destruct (decide (s' = s ∧ a' ∈ l)) as [[-> Hin]|Hn].
    + rewrite decide_True; [done|]. split; [done|]. by right.
    + destruct (decide ((s, a) = (s', a'))) as [[= <- <-]|Hne].
      * rewrite lookup_insert_eq, decide_True; [done|].
        split; [done|]. by left.
      * rewrite lookup_insert_ne by done.
        rewrite decide_False; [done|]. intros [-> Hin].
        apply elem_of_cons in Hin as [->|Hin]; [done|].
        by apply Hn.
Qed.

Lemma zeroed_values s l (σ : mcts) k :
  heuristic (zeroed s l σ) !! k =
  if decide (k.1 = s ∧ k.2 ∈ l) then Some 0%Q else heuristic σ !! k.
Proof.
  revert σ. induction l as [|a l IH]; intros σ; simpl.
  - case_decide as Hk; [|done]. destruct Hk as [_ Hk]. by inv Hk.
  - rewrite IH. simpl. destruct k as [s' a']. simpl.
    destruct (decide (s' = s ∧ a' ∈ l)) as [[-> Hin]|Hn].
    + rewrite decide_True; [done|]. split; [done|]. by right.
    + destruct (decide ((s, a) = (s', a'))) as [[= <- <-]|Hne].
      * rewrite lookup_insert_eq, decide_True; [done|].
        split; [done|]. by left.
      * rewrite lookup_insert_ne by done.
        rewrite decide_False; [done|]. intros [-> Hin].
        apply elem_of_cons in Hin as [->|Hin]; [done|].
        by apply Hn.
Qed.

(** [new_node] always returns; what it leaves behind. *)
Lemma new_node_run (s : State) (σ : mcts) :
  ∃ σ', new_node s σ = (Ok tt, σ') ∧
    tree σ' = {[s]} ∪ tree σ ∧
    visit_counts_s σ' = <[s := 0]> (visit_counts_s σ) ∧
    (∀ k, visit_counts_sa σ' !! k =
          if decide (k.1 = s ∧ k.2 ∈ get_legal_actions s) then Some 0
          else visit_counts_sa σ !! k) ∧
    (∀ k, heuristic σ' !! k =
          if decide (k.1 = s ∧ k.2 ∈ get_legal_actions s) then Some 0%Q
          else heuristic σ !! k) ∧
    state σ' = state σ ∧ simulations σ' = simulations σ ∧
    log_args σ' = log_args σ.
Proof.
  eexists. split.
  { unfold new_node. rewrite !bind_run. simpl. apply for_each_zeroed. }
  match goal with |- context [zeroed s ?l ?σ0] =>
    destruct (zeroed_fields s l σ0) as (->&->&->&->&->);
    split; [done|split; [done|]];
    split; [intros k; by rewrite zeroed_counts|];
    split; [intros k; by rewrite zeroed_values|done]
  end.
Qed.

(** *** Backup *)

Lemma backup_pair_run v k (σ : mcts) :
  backup_pair v k σ =
  match visit_counts_s σ !! k.1 with
  | None => (Raise KeyError, σ)
  | Some n_s =>
      let σ1 :=
        set_visit_counts_s (<[k.1 := n_s + 1]> (visit_counts_s σ)) σ in
      match visit_counts_sa σ !! k with
      | None => (Raise KeyError, σ1)
      | Some n_sa =>
          match heuristic σ !! k with
          | None =>
              (Raise KeyError,
               set_visit_counts_sa
                 (<[k := n_sa + 1]> (visit_counts_sa σ)) σ1)
          | Some h => (Ok tt, credited v k n_s n_sa h σ)
          end
      end
  end.
Proof.
  unfold backup_pair, credited.
  cbv [mbind mcts_bind bind gets getitem ret raise modify id].
  destruct (visit_counts_s σ !! k.1); [|done]. simpl.
  destruct (visit_counts_sa σ !! k); [|done]. simpl.
  destruct (heuristic σ !! k); [|done].
  by rewrite lookup_insert_eq.
Qed.

Lemma backup_pair_tree v k : steps same_tree (backup_pair v k).
Proof.
  intros σ r σ'. rewrite backup_pair_run.
  destruct (visit_counts_s σ !! k.1); [|by intros [= <- <-]].
  destruct (visit_counts_sa σ !! k); [|by intros [= <- <-]].
  by destruct (heuristic σ !! k); intros [= <- <-].
Qed.

Lemma backup_tree vs acts v : steps same_tree (backup vs acts v).
Proof. apply steps_for_each; [apply _|]. intros k. apply backup_pair_tree. Qed.

(** *** The tree only grows *)

Lemma steps_bind_gen {A B} (R1 R2 R3 : relation mcts)
    (m : M A) (k : A → M B) :
  (∀ σ σ', R1 σ σ' → R3 σ σ') →
  (∀ σ1 σ2 σ3, R1 σ1 σ2 → R2 σ2 σ3 → R3 σ1 σ3) →
  steps R1 m → (∀ a, steps R2 (k a)) → steps R3 (m ≫= k).
Proof.
  intros H13 H123 Hm Hk σ r σ' E.
  apply bind_inv in E as [(a & σ1 & E1 & E2)|(_ & r1 & _ & E1)].
  - eapply H123; [by eapply Hm|by eapply Hk].
  - eapply H13, Hm, E1.
Qed.

Lemma same_tree_then_grows (σ1 σ2 σ3 : mcts) n :
  same_tree σ1 σ2 → grows_by n σ2 σ3 → grows_by n σ1 σ3.
Proof. unfold same_tree, grows_by. intros E [S L]. by rewrite <- E. Qed.

Lemma same_tree_grows (σ σ' : mcts) n : same_tree σ σ' → grows_by n σ σ'.
Proof. unfold same_tree. intros E. split; rewrite E; [done|lia]. Qed.

Lemma grows_by_trans (σ1 σ2 σ3 : mcts) n m :
  grows_by n σ1 σ2 → grows_by m σ2 σ3 → grows_by (n + m) σ1 σ3.
Proof. intros [S1 L1] [S2 L2]. split; [by etrans|lia]. Qed.

Lemma new_node_grows s : steps (grows_by 1) (new_node s).
Proof.
  intros σ r σ' E.
  destruct (new_node_run s σ) as (σ1 & E1 & Ht & _).
  rewrite E1 in E. injection E as <- <-. unfold grows_by. rewrite Ht.
  split; [set_solver|].
  rewrite size_union_alt, size_singleton.
  assert (size (tree σ ∖ {[s]}) ≤ size (tree σ)); [|lia].
  apply subseteq_size. set_solver.
Qed.

Lemma simulate_tree_loop_grows fuel c vs acts :
  steps (grows_by 1) (simulate_tree_loop fuel c vs acts).
Proof.
  revert vs acts. induction fuel as [|fuel IH]; intros vs acts; simpl.
  { apply steps_weaken with same_tree; [intros; by apply same_tree_grows|].
    apply steps_diverge, _. }
  apply steps_bind_gen with same_tree (grows_by 1).
  { intros; by apply same_tree_grows. }
  { intros ???. apply same_tree_then_grows. }
  { apply steps_current_state, _. }
  intros s. destruct (state_is_final s).
  { apply steps_weaken with same_tree; [intros; by apply same_tree_grows|].
    apply steps_ret, _. }
  intros σ r σ'. rewrite bind_run. simpl.
  case_decide as Hin.
  - rewrite bind_run. destruct (new_node_run s σ) as (σ1 & E1 & _).
    rewrite E1. intros [= <- <-]. by eapply new_node_grows.
  - clear Hin. revert σ r σ'.
    apply steps_bind_gen with same_tree (grows_by 1).
    { intros; by apply same_tree_grows. }
    { intros ???. apply same_tree_then_grows. }
    { apply steps_weaken with reads; [apply reads_tree|].
      apply select_action_reads. }
    intros a.
    apply steps_bind_gen with same_tree (grows_by 1).
    { intros; by apply same_tree_grows. }
    { intros ???. apply same_tree_then_grows. }
    { apply steps_call, _. }
    intros s'.
    apply steps_bind_gen with same_tree (grows_by 1).
    { intros; by apply same_tree_grows. }
    { intros ???. apply same_tree_then_grows. }
    { by apply steps_modify. }
    intros _. apply IH.
Qed.

(** The stages of one simulation. *)
Lemma simulate_cases fuel root (σ : mcts) r σ' :
  simulate fuel root σ = (r, σ') →
  let σ0 := set_state (Some root) σ in
  (is_ok r = false ∧
   ∃ r1, is_ok r1 = false ∧ simulate_tree fuel σ0 = (r1, σ')) ∨
  ∃ vs acts σ1,
    simulate_tree fuel σ0 = (Ok (vs, acts), σ1) ∧
    ((is_ok r = false ∧
      ∃ r2, is_ok r2 = false ∧ simulate_default fuel σ1 = (r2, σ')) ∨
     ∃ v first σ2,
       simulate_default fuel σ1 = (Ok (v, first), σ2) ∧
       backup vs (match first with
                  | Some a => acts ++ [a]
                  | None => acts
                  end) v σ2 = (r, σ')).
Proof.
  unfold simulate. rewrite bind_run. simpl. intros E.
  apply bind_inv in E as [([vs acts] & σ1 & E1 & E)|(Hr & r1 & H1 & E1)];
    [|left; eauto].
  right. exists vs, acts, σ1. split; [done|].
  apply bind_inv in E as [([v first] & σ2 & E2 & E)|(Hr & r2 & H2 & E2)];
    [|left; eauto].
  right. by exists v, first, σ2.
Qed.

Lemma simulate_tree_grows fuel : steps (grows_by 1) (simulate_tree fuel).
Proof.
  intros σ r σ'. unfold simulate_tree. rewrite bind_run. simpl.
  apply simulate_tree_loop_grows.
Qed.

Lemma simulate_grows fuel root : steps (grows_by 1) (simulate fuel root).
Proof.
  intros σ r σ' E. apply simulate_cases in E. simpl in E.
  destruct E as [(_ & r1 & _ & E1)|(vs & acts & σ1 & E1 & E)].
  { by apply simulate_tree_grows in E1. }
  apply simulate_tree_grows in E1.
  assert (same_tree σ1 σ') as E'.
  { destruct E as [(_ & r2 & _ & E2)|(v & first & σ2 & E2 & E)].
    - by apply simulate_default_reads, reads_tree in E2.
    - apply simulate_default_reads, reads_tree in E2.
      apply backup_tree in E. by etrans. }
  unfold same_tree in E'. unfold grows_by in *. by rewrite E'.
Qed.

Lemma simulate_times_grows n fuel root :
  steps (grows_by n) (simulate_times n fuel root).
Proof.
  induction n as [|n IH]; simpl.
  { apply steps_weaken with same_tree; [intros; by apply same_tree_grows|].
    apply steps_ret, _. }
  apply steps_bind_gen with (grows_by 1) (grows_by n).
  - intros σ σ' [S L]. split; [done|lia].
  - intros σ1 σ2 σ3 G1 G2. apply (grows_by_trans _ _ _ 1 n G1 G2).
  - apply simulate_grows.
  - intros _. apply IH.
Qed.

Lemma mc_tree_search_grows fuel root (σ : mcts) :
  grows_by (simulations σ) σ (mc_tree_search fuel root σ).2.
Proof.
  destruct (mc_tree_search fuel root σ) as [r σ'] eqn:E. simpl.
  unfold mc_tree_search in E. rewrite bind_run in E. simpl in E.
  revert E.
  apply (steps_bind_gen (grows_by (simulations σ)) same_tree).
  - done.
  - intros σ1 σ2 σ3 [S L] E. unfold same_tree in E.
    unfold grows_by. by rewrite E.
  - apply simulate_times_grows.
  - intros _. apply steps_bind; [apply _|by apply steps_modify|]. intros _.
    apply steps_bind;
      [apply _|eapply steps_weaken, select_action_reads; apply reads_tree|].
    intros a. apply steps_bind;
      [apply _|
       eapply steps_weaken, get_visited_distribution_reads; apply reads_tree|].
    intros d. apply steps_ret, _.
Qed.

(** *** C8 *)

(** C8. One simulation keeps every state of the tree and adds at most
    one; a decision ([mc_tree_search]) keeps every state and adds at
    most one per simulation; selecting, reading the distribution and
    backing up leave the tree as it is and expanding adds one state; so
    the tree is empty after one of these only if it was empty before.
    [initialize_variables] empties the tree together with the three
    dictionaries. *)
Theorem tree_only_grows (σ : mcts) (fuel : nat) (root : State) :
  grows_by 1 σ (simulate fuel root σ).2 ∧
  grows_by (simulations σ) σ (mc_tree_search fuel root σ).2 ∧
  (∀ s c, tree (select_action s c σ).2 = tree σ) ∧
  (∀ s, tree (get_visited_distribution s σ).2 = tree σ) ∧
  (∀ vs acts v, tree (backup vs acts v σ).2 = tree σ) ∧
  (∀ s, tree (new_node s σ).2 = {[s]} ∪ tree σ) ∧
  (tree (simulate fuel root σ).2 = ∅ → tree σ = ∅) ∧
  (tree (mc_tree_search fuel root σ).2 = ∅ → tree σ = ∅) ∧
  tree (initialize_variables σ).2 = ∅ ∧
  heuristic (initialize_variables σ).2 = ∅ ∧
  visit_counts_s (initialize_variables σ).2 = ∅ ∧
  visit_counts_sa (initialize_variables σ).2 = ∅.
Proof.
  assert (grows_by 1 σ (simulate fuel root σ).2) as G1.
  { destruct (simulate fuel root σ) as [r σ'] eqn:E.
    by apply simulate_grows in E. }
  pose proof (mc_tree_search_grows fuel root σ) as G2.
  split; [done|]. split; [done|].
  split.
  { intros s c. destruct (select_action s c σ) as [r σ'] eqn:E.
    by apply select_action_reads, reads_tree in E. }
  split.
  { intros s. destruct (get_visited_distribution s σ) as [r σ'] eqn:E.
    by apply get_visited_distribution_reads, reads_tree in E. }
  split.
  { intros vs acts v. destruct (backup vs acts v σ) as [r σ'] eqn:E.
    by apply backup_tree in E. }
  split.
  { intros s. destruct (new_node_run s σ) as (σ' & -> & Ht & _). done. }
  split.
  { intros E. destruct G1 as [S _]. rewrite E in S. set_solver. }
  split.
  { intros E. destruct G2 as [S _]. rewrite E in S. set_solver. }
  done.
Qed.

(** *** Invariants of the statistics *)

#[local] Instance preserves_preorder I : PreOrder (preserves I).
Proof.
  split; [intros σ HI; exact HI|].
  intros σ1 σ2 σ3 H1 H2 HI. apply H2, H1, HI.
Qed.

Lemma mean_step_bounded (h v : Q) (n : nat) :
  (0 <= h)%Q → (h <= 1)%Q → (0 <= v)%Q → (v <= 1)%Q →
  (0 <= h + (v - h) / of_nat (n + 1))%Q ∧
  (h + (v - h) / of_nat (n + 1) <= 1)%Q.
Proof.
  intros Hh0 Hh1 Hv0 Hv1.
  assert (1 <= of_nat (n + 1))%Q as Hd.
  { unfold of_nat. rewrite <- (Zle_Qle 1). lia. }
  set (d := of_nat (n + 1)) in *.
  assert (0 < / d)%Q as Hi by (apply Qinv_lt_0_compat; lra).
  assert (/ d <= 1)%Q as Hi1.
  { apply Qle_shift_inv_r; lra. }
  unfold Qdiv. set (x := (/ d)%Q) in *. clearbody x. split; nra.
Qed.

Lemma backup_pair_bounded v k :
  (0 <= v)%Q → (v <= 1)%Q →
  steps (preserves bounded) (backup_pair v k).
Proof.
  intros Hv0 Hv1 σ r σ'. rewrite backup_pair_run.
  destruct (visit_counts_s σ !! k.1); [|intros [= <- <-]; by intros ?].
  destruct (visit_counts_sa σ !! k); [|intros [= <- <-]; by intros ?].
  destruct (heuristic σ !! k) as [h|] eqn:Eh; intros [= <- <-];
    [|by intros ?].
  intros Hb k' h'. simpl.
  destruct (decide (k = k')) as [<-|Hne].
  - rewrite lookup_insert_eq. intros [= <-].
    destruct (Hb _ _ Eh). by apply mean_step_bounded.
  - rewrite lookup_insert_ne by done. apply Hb.
Qed.

Lemma backup_bounded vs acts v :
  (0 <= v)%Q → (v <= 1)%Q →
  steps (preserves bounded) (backup vs acts v).
Proof.
  intros. apply steps_for_each; [apply _|].
  intros k. by apply backup_pair_bounded.
Qed.

Lemma new_node_bounded s : steps (preserves bounded) (new_node s).
Proof.
  intros σ r σ' E Hb.
  destruct (new_node_run s σ) as (σ1 & E1 & _ & _ & _ & Hh & _).
  rewrite E1 in E. injection E as <- <-.
  intros k h. rewrite Hh. case_decide; [|apply Hb].
  intros [= <-]. done.
Qed.

Lemma reads_bounded (σ σ' : mcts) : reads σ σ' → preserves bounded σ σ'.
Proof. intros ((_&E&_)&_) Hb k h. rewrite E. apply Hb. Qed.

(** The rollout returns a win indicator. *)
Lemma simulate_default_outcome fuel (σ : mcts) v first σ' :
  simulate_default fuel σ = (Ok (v, first), σ') →
  ∃ s, state σ' = Some s ∧ v = of_bool (winner_is_p0 s).
Proof.
  unfold simulate_default. intros E.
  apply bind_ok_inv in E as (s0 & σ1 & _ & E).
  apply bind_ok_inv in E as (f & σ2 & _ & E).
  apply bind_ok_inv in E as (u & σ3 & _ & E).
  apply bind_ok_inv in E as (s & σ4 & E4 & E).
  injection E as <- <- <-.
  unfold current_state in E4. rewrite bind_run in E4. simpl in E4.
  destruct (state σ3) as [s'|] eqn:Es; [|done].
  injection E4 as <- <-. eauto.
Qed.

Lemma of_bool_range b : (0 <= of_bool b)%Q ∧ (of_bool b <= 1)%Q.
Proof. by destruct b. Qed.

(** A relation that holds across every read, every expansion and
    every backup of a win indicator holds across a simulation and
    across a decision, however they end. *)
Section Lifting.
Context (R : relation mcts) `{!PreOrder R}.
Hypothesis R_reads : ∀ σ σ', reads σ σ' → R σ σ'.
Hypothesis R_new_node : ∀ s, steps R (new_node s).
Hypothesis R_backup : ∀ vs acts b, steps R (backup vs acts (of_bool b)).

Lemma simulate_tree_loop_steps fuel c vs acts :
  steps R (simulate_tree_loop fuel c vs acts).
Proof.
  revert vs acts. induction fuel as [|fuel IH]; intros vs acts; simpl.
  { apply steps_diverge, _. }
  apply steps_bind; [apply _|apply steps_current_state, _|]. intros s.
  destruct (state_is_final s); [apply steps_ret, _|].
  apply steps_bind; [apply _|apply steps_gets, _|]. intros t.
  case_decide.
  - apply steps_bind; [apply _|apply R_new_node|]. intros _.
    apply steps_ret, _.
  - apply steps_bind;
      [apply _|eapply steps_weaken, select_action_reads; apply R_reads|].
    intros a. apply steps_bind; [apply _|apply steps_call, _|].
    intros s'. apply steps_bind; [apply _| |by intros _].
    apply steps_modify. intros σ. apply R_reads, reads_set_state.
Qed.

Lemma simulate_steps fuel root : steps R (simulate fuel root).
Proof.
  intros σ r σ' E. apply simulate_cases in E. simpl in E.
  assert (R σ (set_state (Some root) σ)) as R0
    by apply R_reads, reads_set_state.
  etrans; [exact R0|].
  assert (∀ r1 σ1, simulate_tree fuel (set_state (Some root) σ) = (r1, σ1)
                   → R (set_state (Some root) σ) σ1) as Ht.
  { intros r1 σ1. unfold simulate_tree. rewrite bind_run. simpl.
    apply simulate_tree_loop_steps. }
  destruct E as [(_ & r1 & _ & E1)|(vs & acts & σ1 & E1 & E)].
  { by eapply Ht. }
  etrans; [by eapply Ht|].
  destruct E as [(_ & r2 & _ & E2)|(v & first & σ2 & E2 & E)].
  - by apply simulate_default_reads, R_reads in E2.
  - destruct (simulate_default_outcome _ _ _ _ _ E2) as (s & _ & ->).
    apply simulate_default_reads, R_reads in E2.
    etrans; [exact E2|]. by eapply R_backup.
Qed.

Lemma simulate_times_steps n fuel root :
  steps R (simulate_times n fuel root).
Proof.
  induction n as [|n IH]; simpl; [apply steps_ret, _|].
  apply steps_bind; [apply _|apply simulate_steps|by intros _].
Qed.

Lemma mc_tree_search_steps fuel root : steps R (mc_tree_search fuel root).
Proof.
  unfold mc_tree_search.
  apply steps_bind; [apply _|apply steps_gets, _|]. intros n.
  apply steps_bind; [apply _|apply simulate_times_steps|]. intros _.
  apply steps_bind; [apply _| |].
  { apply steps_modify. intros σ. apply R_reads, reads_set_state. }
  intros _. apply steps_bind;
    [apply _|eapply steps_weaken, select_action_reads; apply R_reads|].
  intros a. apply steps_bind;
    [apply _|
     eapply steps_weaken, get_visited_distribution_reads; apply R_reads|].
  intros d. apply steps_ret, _.
Qed.
End Lifting.

Lemma initialize_variables_run (σ : mcts) :
  initialize_variables σ =
  (Ok tt, set_visit_counts_sa ∅
            (set_visit_counts_s ∅ (set_heuristic ∅ (set_tree ∅ σ)))).
Proof. reflexivity. Qed.

Lemma run_op_bounded o :
  outcome_in_range o → steps (preserves bounded) (run_op o).
Proof.
  intros Ho. destruct o as [|s|vs acts v|fuel root|fuel root]; simpl.
  - intros σ r σ'. rewrite initialize_variables_run.
    intros [= <- <-] _ k h. simpl. by rewrite lookup_empty.
  - apply new_node_bounded.
  - destruct Ho. by apply backup_bounded.
  - apply simulate_steps; [apply _|apply reads_bounded|
      apply new_node_bounded|].
    intros vs acts b. apply backup_bounded; apply of_bool_range.
  - apply steps_bind; [apply _| |intros ?; apply steps_ret, _].
    apply mc_tree_search_steps; [apply _|apply reads_bounded|
      apply new_node_bounded|].
    intros vs acts b. apply backup_bounded; apply of_bool_range.
Qed.

(** *** C9 *)

(** C9. After the reset and any history of expansions, backups of
    outcomes in [0, 1], simulations and decisions, whether these calls
    returned or raised, every stored action value is in [0, 1]; the
    outcome the simulations back up is the win indicator
    [winner_is_p0], which is 0 or 1. *)
Theorem action_values_in_range (σ0 : mcts) (ops : list op)
    (s : State) (a : Action) (h : Q) :
  Forall outcome_in_range ops →
  heuristic (after ops (initialize_variables σ0).2) !! (s, a) = Some h →
  (0 <= h)%Q ∧ (h <= 1)%Q.
Proof.
  intros Hops.
  assert (bounded (initialize_variables σ0).2) as Hb.
  { intros k h'. simpl. by rewrite lookup_empty. }
  revert Hb. generalize (initialize_variables σ0).2 as σ.
  induction Hops as [|o ops Ho Hops IH]; intros σ Hb; simpl.
  { apply Hb. }
  apply IH. destruct (run_op o σ) as [r σ'] eqn:E. simpl.
  by eapply run_op_bounded.
Qed.

(** *** The keys of the dictionaries *)

Lemma new_node_keys s : steps (preserves keys_ok) (new_node s).
Proof.
  intros σ r σ' E (K1 & K2 & K3).
  destruct (new_node_run s σ) as (σ1 & E1 & Ht & Hs & Hc & Hh & _).
  rewrite E1 in E. injection E as <- <-.
  split; [|split].
  - intros s'. rewrite Hs, Ht, lookup_insert_is_Some, K1.
    rewrite elem_of_union, elem_of_singleton.
    destruct (decide (s = s')); naive_solver.
  - intros s' a. rewrite Hc, Ht. simpl.
    rewrite elem_of_union, elem_of_singleton. case_decide as Hd.
    + destruct Hd as [-> Ha]. split; [|by eauto]. intros _. by auto.
    + rewrite K2. split; [by intros [? ?]; auto|].
      intros [[->|Hin] Ha]; [|done]. by destruct Hd.
  - intros s' a. rewrite Hh, Ht. simpl.
    rewrite elem_of_union, elem_of_singleton. case_decide as Hd.
    + destruct Hd as [-> Ha]. split; [|by eauto]. intros _. by auto.
    + rewrite K3. split; [by intros [? ?]; auto|].
      intros [[->|Hin] Ha]; [|done]. by destruct Hd.
Qed.

Lemma is_Some_insert_same {K V} `{Countable K} (m : gmap K V) k v k' :
  is_Some (m !! k) → is_Some (<[k := v]> m !! k') ↔ is_Some (m !! k').
Proof.
  intros Hk. rewrite lookup_insert_is_Some. split.
  - by intros [<-|[_ ?]].
  - intros Hk'. destruct (decide (k = k')); by auto.
Qed.

Lemma backup_pair_keys v k : steps (preserves keys_ok) (backup_pair v k).
Proof.
  intros σ r σ'. rewrite backup_pair_run.
  destruct (visit_counts_s σ !! k.1) as [n_s|] eqn:Es;
    [|intros [= <- <-]; by intros ?].
  assert (∀ s', is_Some (<[k.1 := n_s + 1]> (visit_counts_s σ) !! s')
                ↔ is_Some (visit_counts_s σ !! s')) as Hs.
  { intros s'. apply is_Some_insert_same. by rewrite Es. }
  destruct (visit_counts_sa σ !! k) as [n_sa|] eqn:Ec.
  2:{ intros [= <- <-] (K1 & K2 & K3). split; [|done].
      intros s'. simpl. by rewrite Hs. }
  assert (∀ k', is_Some (<[k := n_sa + 1]> (visit_counts_sa σ) !! k')
                ↔ is_Some (visit_counts_sa σ !! k')) as Hc.
  { intros k'. apply is_Some_insert_same. by rewrite Ec. }
  destruct (heuristic σ !! k) as [h|] eqn:Eh.
  2:{ intros [= <- <-] (K1 & K2 & K3). split; [|split; [|done]].
      - intros s'. simpl. by rewrite Hs.
      - intros s' a. simpl. by rewrite Hc. }
  intros [= <- <-] (K1 & K2 & K3). split; [|split].
  - intros s'. simpl. by rewrite Hs.
  - intros s' a. simpl. by rewrite Hc.
  - intros s' a. simpl. rewrite is_Some_insert_same; [done|].
    by rewrite Eh.
Qed.

Lemma backup_keys vs acts v : steps (preserves keys_ok) (backup vs acts v).
Proof. apply steps_for_each; [apply _|]. intros k. apply backup_pair_keys. Qed.

Lemma same_stats_keys (σ σ' : mcts) :
  same_stats σ σ' → preserves keys_ok σ σ'.
Proof.
  intros (Et & Eh & Es & Ec) K. unfold keys_ok.
  by rewrite Et, Eh, Es, Ec.
Qed.

(** *** The visit counts add up *)

Lemma sum_list_ext {A} (f g : A → nat) (l : list A) :
  (∀ x, x ∈ l → g x = f x) → sum_list (map g l) = sum_list (map f l).
Proof.
  induction l as [|x l IH]; intros Hfg; [done|]. simpl.
  rewrite Hfg by (by left). rewrite IH; [done|].
  intros y Hy. apply Hfg. by right.
Qed.

Lemma sum_list_bump {A} (f g : A → nat) (l : list A) (a : A) :
  NoDup l → a ∈ l → g a = f a + 1 → (∀ x, x ≠ a → g x = f x) →
  sum_list (map g l) = sum_list (map f l) + 1.
Proof.
  intros Hnd Ha Hga Hg. induction Hnd as [|x l Hx Hnd IH]; [by inv Ha|].
  simpl. apply elem_of_cons in Ha as [<-|Ha].
  - rewrite Hga. rewrite (sum_list_ext f g l); [lia|].
    intros y Hy. apply Hg. by intros ->.
  - rewrite IH by done. rewrite Hg; [lia|]. by intros ->.
Qed.

Lemma backup_pair_ok_inv v k (σ σ' : mcts) :
  backup_pair v k σ = (Ok tt, σ') →
  ∃ n_s n_sa h,
    visit_counts_s σ !! k.1 = Some n_s ∧
    visit_counts_sa σ !! k = Some n_sa ∧
    heuristic σ !! k = Some h ∧
    σ' = credited v k n_s n_sa h σ.
Proof.
  rewrite backup_pair_run.
  destruct (visit_counts_s σ !! k.1) as [n_s|]; [|done].
  destruct (visit_counts_sa σ !! k) as [n_sa|]; [|done].
  destruct (heuristic σ !! k) as [h|]; [|done].
  intros [= <-]. by exists n_s, n_sa, h.
Qed.

Lemma credited_counts_ok v k n_s n_sa h (σ : mcts) :
  visit_counts_s σ !! k.1 = Some n_s →
  visit_counts_sa σ !! k = Some n_sa →
  keys_ok σ → counts_ok σ → counts_ok (credited v k n_s n_sa h σ).
Proof.
  intros Es Ec (K1 & K2 & K3) Hc s n. simpl.
  destruct k as [s0 a0]. simpl in *.
  assert (a0 ∈ get_legal_actions s0) as Ha.
  { apply (K2 s0 a0). by rewrite Ec. }
  unfold sum_sa. destruct (decide (s0 = s)) as [<-|Hne].
  - rewrite lookup_insert_eq. intros [= <-].
    rewrite (Hc _ _ Es). unfold sum_sa. symmetry.
    apply sum_list_bump with a0.
    + apply NoDup_remove_dups.
    + by apply elem_of_remove_dups.
    + unfold count_sa. simpl. by rewrite lookup_insert_eq, Ec.
    + intros a Hne. unfold count_sa. simpl.
      rewrite lookup_insert_ne; [done|]. by intros [= <-].
  - rewrite lookup_insert_ne by done. intros En.
    rewrite (Hc _ _ En). unfold sum_sa. symmetry.
    apply sum_list_ext. intros a _. unfold count_sa. simpl.
    rewrite lookup_insert_ne; [done|]. by intros [= <- _].
Qed.

Lemma new_node_counts_ok s : steps (preserves counts_ok) (new_node s).
Proof.
  intros σ r σ' E Hc.
  destruct (new_node_run s σ) as (σ1 & E1 & Ht & Hs & Hsa & _).
  rewrite E1 in E. injection E as <- <-.
  intros s' n. rewrite Hs. unfold sum_sa.
  destruct (decide (s = s')) as [<-|Hne].
  - rewrite lookup_insert_eq. intros [= <-].
    rewrite (sum_list_ext (λ _, 0)).
    + by induction (remove_dups (get_legal_actions s)).
    + intros a Ha. unfold count_sa. rewrite Hsa. simpl.
      rewrite decide_True; [done|]. split; [done|].
      by apply elem_of_remove_dups.
  - rewrite lookup_insert_ne by done. intros En. rewrite (Hc _ _ En).
    symmetry. apply sum_list_ext. intros a _. unfold count_sa.
    rewrite Hsa. simpl. rewrite decide_False; [done|]. by intros [-> _].
Qed.

Lemma for_each_backup_ok v (pairs : list (State * Action)) :
  ∀ (σ σ' : mcts) (P : State → Prop),
    for_each pairs (backup_pair v) σ = (Ok tt, σ') →
    keys_ok σ → counts_ok σ →
    (∀ s n, visit_counts_s σ !! s = Some n → 1 ≤ n ∨ P s) →
    keys_ok σ' ∧ counts_ok σ' ∧
    ∀ s n, visit_counts_s σ' !! s = Some n →
           1 ≤ n ∨ (P s ∧ s ∉ pairs.*1).
Proof.
  induction pairs as [|k pairs IH]; intros σ σ' P E HK HC HV.
  { injection E as <-. split; [done|]. split; [done|].
    intros s n Hs. destruct (HV s n Hs) as [?|?]; [by left|right].
    split; [done|]. by apply not_elem_of_nil. }
  simpl in E. apply bind_ok_inv in E as ([] & σ1 & E1 & E).
  pose proof (backup_pair_keys _ _ _ _ _ E1 HK) as HK1.
  apply backup_pair_ok_inv in E1 as (n_s & n_sa & h & Es & Ec & Eh & ->).
  pose proof (credited_counts_ok v k n_s n_sa h σ Es Ec HK HC) as HC1.
  destruct (IH _ _ (λ s, P s ∧ s ≠ k.1) E HK1 HC1) as (HK' & HC' & HV').
  { intros s n. simpl. destruct (decide (k.1 = s)) as [<-|Hne].
    - rewrite lookup_insert_eq. intros [= <-]. left. lia.
    - rewrite lookup_insert_ne by done. intros Hs.
      destruct (HV s n Hs) as [?|?]; [by left|right]. by split. }
  split; [done|]. split; [done|].
  intros s n Hs. destruct (HV' s n Hs) as [?|[[HP Hne] Hnin]]; [by left|].
  right. split; [done|]. rewrite fmap_cons, not_elem_of_cons. by split.
Qed.

(** *** The descent *)

Lemma current_state_inv (σ : mcts) s σ' :
  current_state σ = (Ok s, σ') → σ' = σ ∧ state σ = Some s.
Proof.
  unfold current_state. rewrite bind_run. simpl.
  destruct (state σ); [|done]. by intros [= <- <-].
Qed.

(** A descent that returns has followed a path of selected actions
    and stopped either at a final state, having changed no statistic,
    or at a state it has just expanded. *)
Lemma simulate_tree_loop_ok fuel c :
  ∀ vs acts (σ : mcts) vs' acts' σ',
    simulate_tree_loop fuel c vs acts σ = (Ok (vs', acts'), σ') →
    ∃ path : list (State * Action),
      acts' = acts ++ path.*2 ∧
      ((vs' = vs ++ path.*1 ∧ reads σ σ' ∧
        ∃ sf, state σ' = Some sf ∧ state_is_final sf = true) ∨
       (∃ leaf σm,
          vs' = vs ++ path.*1 ++ [leaf] ∧
          state_is_final leaf = false ∧
          reads σ σm ∧ state σm = Some leaf ∧
          new_node leaf σm = (Ok tt, σ'))).
Proof.
  induction fuel as [|fuel IH]; intros vs acts σ vs' acts' σ' E; [done|].
  simpl in E. apply bind_ok_inv in E as (s & σ0 & E0 & E).
  apply current_state_inv in E0 as [-> Es].
  destruct (state_is_final s) eqn:Ef.
  { injection E as <- <- <-. exists []. simpl. rewrite !app_nil_r.
    split; [done|]. left. split; [done|]. split; [reflexivity|eauto]. }
  rewrite bind_run in E. simpl in E. case_decide as Hin.
  - apply bind_ok_inv in E as ([] & σ1 & E1 & E).
    injection E as <- <- <-. exists []. simpl. rewrite app_nil_r.
    split; [done|]. right. exists s, σ.
    split; [done|]. split; [done|]. split; [reflexivity|done].
  - apply bind_ok_inv in E as (a & σ1 & E1 & E).
    apply select_action_reads in E1.
    apply bind_ok_inv in E as (child & σ2 & E2 & E).
    injection E2 as E2 <-.
    apply bind_ok_inv in E as ([] & σ3 & E3 & E).
    injection E3 as <-.
    apply IH in E as (path & -> & Hcases).
    assert (reads σ (set_state (Some child) σ1)) as Hr.
    { etrans; [exact E1|]. apply reads_set_state. }
    exists ((s, a) :: path). simpl. split; [by rewrite <- app_assoc|].
    destruct Hcases as [(-> & Hr' & Hf)|(leaf & σm & -> & Hl & Hr' & Hm)].
    + left. split; [by rewrite <- app_assoc|].
      split; [by etrans|done].
    + right. exists leaf, σm. split; [by rewrite <- !app_assoc|].
      split; [done|]. split; [by etrans|done].
Qed.

Lemma simulate_default_first fuel (σ : mcts) v first σ' s :
  state σ = Some s →
  simulate_default fuel σ = (Ok (v, first), σ') →
  if state_is_final s then first = None else is_Some first.
Proof.
  intros Es E. unfold simulate_default in E.
  apply bind_ok_inv in E as (s0 & σ1 & E0 & E).
  apply current_state_inv in E0 as [-> Es0].
  rewrite Es in Es0. injection Es0 as <-.
  apply bind_ok_inv in E as (f & σ2 & E1 & E).
  apply bind_ok_inv in E as (u & σ3 & _ & E).
  apply bind_ok_inv in E as (s' & σ4 & _ & E).
  injection E as <- <- <-.
  destruct (state_is_final s).
  - by injection E1 as <- <-.
  - apply bind_ok_inv in E1 as (a & σ5 & _ & E1).
    injection E1 as <- <-. by eexists.
Qed.

(** *** Episodes keep the invariants *)

Lemma same_stats_counts_ok (σ σ' : mcts) :
  same_stats σ σ' → counts_ok σ → counts_ok σ'.
Proof.
  intros (Et & Eh & Es & Ec) HC s n. rewrite Es. intros Hs.
  rewrite (HC _ _ Hs). unfold sum_sa, count_sa. by rewrite Ec.
Qed.

Lemma reads_inv (σ σ' : mcts) : reads σ σ' → inv σ → inv σ'.
Proof.
  intros [E _] (HK & HC & HV). split; [by eapply same_stats_keys|].
  split; [by eapply same_stats_counts_ok|by eapply same_stats_visited].
Qed.

Lemma zip_fmap_fst_snd {A B} (l : list (A * B)) : zip (l.*1) (l.*2) = l.
Proof. induction l as [|[a b] l IH]; [done|]. simpl. by f_equal. Qed.

Lemma zip_snoc {A B} (l : list (A * B)) (a : A) (b : B) :
  zip (l.*1 ++ [a]) (l.*2 ++ [b]) = l ++ [(a, b)].
Proof. induction l as [|[x y] l IH]; [done|]. simpl. by f_equal. Qed.

Lemma simulate_inv fuel root (σ σ' : mcts) :
  simulate fuel root σ = (Ok tt, σ') → inv σ → inv σ'.
Proof.
  intros E Hinv. apply simulate_cases in E. simpl in E.
  destruct E as [([=] & _)|(vs & acts & σ1 & E1 & E)].
  destruct E as [([=] & _)|(v & first & σ2 & E2 & E)].
  assert (inv (set_state (Some root) σ)) as Hinv0.
  { eapply reads_inv; [apply reads_set_state|done]. }
  unfold simulate_tree in E1. rewrite bind_run in E1. simpl in E1.
  apply simulate_tree_loop_ok in E1 as (path & -> & Hcases).
  simpl in *.
  destruct Hcases as [(-> & Hr & sf & Hsf & Hfin)
                     |(leaf & σm & -> & Hl & Hr & Hm & En)].
  - pose proof (simulate_default_first _ _ _ _ _ _ Hsf E2) as Hfirst.
    rewrite Hfin in Hfirst. subst first.
    apply simulate_default_reads in E2.
    destruct (reads_inv _ _ E2 (reads_inv _ _ Hr Hinv0))
      as (HK & HC & HV).
    unfold backup in E. rewrite zip_fmap_fst_snd in E.
    destruct (for_each_backup_ok _ _ _ _ (λ _, False) E HK HC)
      as (HK' & HC' & HV').
    { intros s n Hs. left. by eapply HV. }
    split; [done|]. split; [done|].
    intros s n Hs. by destruct (HV' s n Hs) as [?|[[] _]].
  - destruct (reads_inv _ _ Hr Hinv0) as (HKm & HCm & HVm).
    pose proof (new_node_keys _ _ _ _ En HKm) as HK1.
    pose proof (new_node_counts_ok _ _ _ _ En HCm) as HC1.
    destruct (new_node_run leaf σm) as (σ1' & En' & _ & Hs1 & _ & _ & Hst & _).
    rewrite En in En'. injection En' as <-.
    assert (state σ1 = Some leaf) as Hleaf by (by rewrite Hst).
    pose proof (simulate_default_first _ _ _ _ _ _ Hleaf E2) as Hfirst.
    rewrite Hl in Hfirst. destruct Hfirst as [a ->].
    apply simulate_default_reads in E2. destruct E2 as [E2 _].
    pose proof (same_stats_keys _ _ E2 HK1) as HK2.
    pose proof (same_stats_counts_ok _ _ E2 HC1) as HC2.
    unfold backup in E. rewrite zip_snoc in E.
    destruct (for_each_backup_ok _ _ _ _ (λ s, s = leaf) E HK2 HC2)
      as (HK' & HC' & HV').
    { intros s n. destruct E2 as (_ & _ & -> & _). rewrite Hs1.
      destruct (decide (leaf = s)) as [<-|Hne]; [by right|].
      rewrite lookup_insert_ne by done. intros Hs. left. by eapply HVm. }
    split; [done|]. split; [done|].
    intros s n Hs. destruct (HV' s n Hs) as [?|[-> Hnin]]; [done|].
    exfalso. apply Hnin. rewrite fmap_app. apply elem_of_app. right.
    by apply list_elem_of_singleton.
Qed.

Lemma simulate_times_inv n fuel root (σ σ' : mcts) :
  simulate_times n fuel root σ = (Ok tt, σ') → inv σ → inv σ'.
Proof.
  revert σ. induction n as [|n IH]; intros σ E Hinv.
  { by injection E as <-. }
  simpl in E. apply bind_ok_inv in E as ([] & σ1 & E1 & E).
  eapply IH; [exact E|]. by eapply simulate_inv.
Qed.

(** The stages of a decision that returns. *)
Lemma mc_tree_search_ok_inv fuel root (σ : mcts) a d σ' :
  mc_tree_search fuel root σ = (Ok (a, d), σ') →
  ∃ σ1 σ2,
    simulate_times (simulations σ) fuel root σ = (Ok tt, σ1) ∧
    select_action root 0%Q (set_state (Some root) σ1) = (Ok a, σ2) ∧
    get_visited_distribution root σ2 = (Ok d, σ').
Proof.
  unfold mc_tree_search. rewrite bind_run. simpl. intros E.
  apply bind_ok_inv in E as ([] & σ1 & E1 & E).
  rewrite bind_run in E. simpl in E.
  apply bind_ok_inv in E as (a' & σ2 & E2 & E).
  apply bind_ok_inv in E as (d' & σ3 & E3 & E).
  injection E as <- <- <-. by exists σ1, σ2.
Qed.

Lemma episode_inv (σ : mcts) : episode σ → inv σ.
Proof.
  induction 1 as [σ0|σ fuel root σ' _ IH E|σ fuel root [a d] σ' _ IH E].
  - split; [|split].
    + split; [|split]; intros; simpl; rewrite lookup_empty;
        split; try (by intros []); set_solver.
    + intros s n. simpl. by rewrite lookup_empty.
    + intros s n. simpl. by rewrite lookup_empty.
  - by eapply simulate_inv.
  - apply mc_tree_search_ok_inv in E as (σ1 & σ2 & E1 & E2 & E3).
    apply simulate_times_inv in E1; [|done].
    apply select_action_reads in E2.
    apply get_visited_distribution_reads in E3.
    eapply reads_inv; [exact E3|]. eapply reads_inv; [exact E2|].
    eapply reads_inv; [apply reads_set_state|done].
Qed.

(** *** C3 *)

(** C3. In an episode, after any number of simulations and decisions
    that returned, every state of the tree has its visit count, each of
    its legal actions has one, and the count of the state is the sum of
    the counts of its legal actions. *)
Theorem visit_counts_add_up (σ : mcts) (s : State) :
  episode σ →
  s ∈ tree σ →
  ∃ n, visit_counts_s σ !! s = Some n ∧
       (∀ a, a ∈ get_legal_actions s →
             is_Some (visit_counts_sa σ !! (s, a))) ∧
       n = sum_sa σ s.
Proof.
  intros Hep Hs. destruct (episode_inv σ Hep) as ((K1 & K2 & K3) & HC & _).
  destruct (proj2 (K1 s) Hs) as [n Hn]. exists n.
  split; [done|]. split; [|by apply HC].
  intros a Ha. by apply K2.
Qed.

(** *** Arguments of [np.log] *)

Lemma backup_pair_quiet v k : steps quiet (backup_pair v k).
Proof.
  intros σ r σ'. rewrite backup_pair_run.
  destruct (visit_counts_s σ !! k.1); [|by intros [= <- <-]].
  destruct (visit_counts_sa σ !! k); [|by intros [= <- <-]].
  by destruct (heuristic σ !! k); intros [= <- <-].
Qed.

Lemma backup_quiet vs acts v : steps quiet (backup vs acts v).
Proof. apply steps_for_each; [apply _|]. intros k. apply backup_pair_quiet. Qed.

Lemma new_node_quiet s : steps quiet (new_node s).
Proof.
  intros σ r σ' E.
  destruct (new_node_run s σ) as (σ1 & E1 & _ & _ & _ & _ & _ & _ & Hl).
  rewrite E1 in E. by injection E as <- <-.
Qed.

Lemma quiet_logs_from (σ σ' : mcts) : quiet σ σ' → logs_from σ σ'.
Proof. apply logs_from_refl. Qed.

Lemma reads_visited (σ σ' : mcts) : reads σ σ' → visited σ → visited σ'.
Proof. intros [E _]. by apply same_stats_visited. Qed.

Lemma simulate_tree_loop_logs fuel c :
  ∀ vs acts (σ : mcts) r σ',
    simulate_tree_loop fuel c vs acts σ = (r, σ') →
    visited σ → logs_from σ σ'.
Proof.
  induction fuel as [|fuel IH]; intros vs acts σ r σ' E HV.
  { injection E as <- <-. by apply logs_from_refl. }
  simpl in E.
  apply bind_inv in E as [(s & σ0 & E0 & E)|(_ & r0 & _ & E0)].
  2:{ apply (steps_current_state quiet) in E0. by apply quiet_logs_from. }
  apply current_state_inv in E0 as [-> Es].
  destruct (state_is_final s).
  { injection E as <- <-. by apply logs_from_refl. }
  rewrite bind_run in E. simpl in E. case_decide as Hin.
  - destruct (new_node_run s σ) as (σ1 & E1 & _ & _ & _ & _ & _ & _ & Hl).
    rewrite bind_run, E1 in E. injection E as <- <-.
    by apply logs_from_refl.
  - apply bind_inv in E as [(a & σ1 & E1 & E)|(_ & r1 & _ & E1)].
    2:{ apply select_action_reads in E1. by apply E1. }
    apply select_action_reads in E1.
    pose proof (proj2 (proj2 E1) HV) as L1.
    apply bind_inv in E as [(child & σ2 & E2 & E)|(_ & r2 & _ & E2)].
    2:{ by injection E2 as <- <-. }
    injection E2 as E2 <-.
    rewrite bind_run in E. simpl in E.
    eapply logs_from_trans; [exact L1|].
    apply IH in E.
    + destruct E as (new & El & Hnew). by exists new.
    + eapply same_stats_visited; [|by eapply reads_visited].
      by repeat split.
Qed.

Lemma simulate_logs fuel root (σ : mcts) r σ' :
  simulate fuel root σ = (r, σ') → visited σ → logs_from σ σ'.
Proof.
  intros E HV. apply simulate_cases in E. simpl in E.
  assert (∀ r1 σ1, simulate_tree fuel (set_state (Some root) σ) = (r1, σ1)
                   → logs_from σ σ1) as Ht.
  { intros r1 σ1. unfold simulate_tree. rewrite bind_run. simpl.
    intros E1. apply simulate_tree_loop_logs in E1; [|done].
    destruct E1 as (new & El & Hnew). by exists new. }
  destruct E as [(_ & r1 & _ & E1)|(vs & acts & σ1 & E1 & E)].
  { by eapply Ht. }
  eapply logs_from_trans; [by eapply Ht|]. apply quiet_logs_from.
  destruct E as [(_ & r2 & _ & E2)|(v & first & σ2 & E2 & E)].
  - by apply simulate_default_idles in E2 as (_ & _ & ?).
  - apply simulate_default_idles in E2 as (_ & _ & ?).
    apply backup_quiet in E. by etrans.
Qed.

Lemma simulate_times_logs n fuel root :
  ∀ (σ : mcts) r σ',
    simulate_times n fuel root σ = (r, σ') → inv σ →
    logs_from σ σ' ∧ (r = Ok tt → inv σ').
Proof.
  induction n as [|n IH]; intros σ r σ' E Hinv.
  { injection E as <- <-. split; [by apply logs_from_refl|done]. }
  simpl in E.
  apply bind_inv in E as [([] & σ1 & E1 & E)|(Hr & r1 & _ & E1)].
  - pose proof (simulate_logs _ _ _ _ _ E1 (proj2 (proj2 Hinv))) as L1.
    apply simulate_inv in E1; [|done].
    destruct (IH _ _ _ E E1) as [L2 Hinv'].
    split; [by eapply logs_from_trans|done].
  - split; [by eapply simulate_logs, proj2, proj2, Hinv|].
    intros ->. done.
Qed.

Lemma mc_tree_search_logs fuel root (σ : mcts) r σ' :
  mc_tree_search fuel root σ = (r, σ') → inv σ → logs_from σ σ'.
Proof.
  unfold mc_tree_search. rewrite bind_run. simpl. intros E Hinv.
  apply bind_inv in E as [([] & σ1 & E1 & E)|(Hr & r1 & _ & E1)].
  2:{ by apply simulate_times_logs in E1 as [? _]. }
  apply simulate_times_logs in E1 as [L1 Hinv1]; [|done].
  specialize (Hinv1 eq_refl).
  eapply logs_from_trans; [exact L1|].
  rewrite bind_run in E. simpl in E.
  assert (visited (set_state (Some root) σ1)) as HV
    by apply Hinv1.
  apply bind_inv in E as [(a & σ2 & E2 & E)|(_ & r2 & _ & E2)].
  2:{ apply select_action_reads in E2.
      destruct (proj2 (proj2 E2) HV) as (new & El & Hnew). by exists new. }
  apply select_action_reads in E2.
  destruct (proj2 (proj2 E2) HV) as (new & El & Hnew).
  assert (quiet σ2 σ') as Hq.
  { apply bind_inv in E as [(d & σ3 & E3 & E)|(_ & r3 & _ & E3)].
    - injection E as <- <-.
      by apply get_visited_distribution_idles in E3 as (_ & _ & ?).
    - by apply get_visited_distribution_idles in E3 as (_ & _ & ?). }
  exists new. split; [|done]. unfold quiet in Hq. by rewrite Hq, El.
Qed.

(** *** C10 *)

(** C10. In an episode, after any number of simulations and decisions
    that returned, every state of the tree has been visited at least
    once; and whatever the next simulation or decision does, and
    however it ends, every argument its selections pass to [np.log] is
    at least 1. *)
Theorem log_never_at_zero (σ : mcts) :
  episode σ →
  (∀ s, s ∈ tree σ → ∃ n, visit_counts_s σ !! s = Some n ∧ 1 ≤ n) ∧
  (∀ fuel root,
     ∃ new, log_args (simulate fuel root σ).2 = log_args σ ++ new ∧
            Forall (λ n, 1 ≤ n) new) ∧
  (∀ fuel root,
     ∃ new, log_args (mc_tree_search fuel root σ).2 = log_args σ ++ new ∧
            Forall (λ n, 1 ≤ n) new).
Proof.
  intros Hep. pose proof (episode_inv σ Hep) as Hinv.
  destruct Hinv as ((K1 & K2 & K3) & HC & HV).
  split; [|split].
  - intros s Hs. destruct (proj2 (K1 s) Hs) as [n Hn]. exists n.
    split; [done|]. by eapply HV.
  - intros fuel root. destruct (simulate fuel root σ) as [r σ'] eqn:E.
    by eapply simulate_logs.
  - intros fuel root.
    destruct (mc_tree_search fuel root σ) as [r σ'] eqn:E.
    eapply mc_tree_search_logs; [exact E|]. split; [|by split].
    by split.
Qed.

(** *** Backup as a running mean *)











(** *** C1 *)


(** *** Selection *)

Lemma of_nat_nonneg n : (0 <= of_nat n)%Q.
Proof. unfold of_nat. rewrite <- (Zle_Qle 0). lia. Qed.




Lemma map_each_action_value p0 s c n (l : list Action) :
  ∀ σ : mcts,
    visit_counts_s σ !! s = Some n →
    (∀ a, a ∈ l → is_Some (visit_counts_sa σ !! (s, a)) ∧
                  is_Some (heuristic σ !! (s, a))) →
    ∃ σ', map_each l (action_value p0 s c) σ
          = (Ok (map (λ a, score ln_q sqrt_q p0 c (value_sa σ s a) n
                             (count_sa σ s a)) l), σ').
Proof.
  induction l as [|a l IH]; intros σ Hn Hkeys; [by eexists|].
  destruct (Hkeys a) as [[m Hm] [h Hh]]; [by left|].
  destruct (IH (set_log_args (log_args σ ++ [n]) σ)) as [σ' E]; [done| |].
  { intros b Hb. apply Hkeys. by right. }
  exists σ'. cbn [map_each map].
  rewrite bind_run, action_value_run, Hh, Hn, Hm. cbv beta iota zeta.
  rewrite bind_run, E.
  unfold value_sa, count_sa. by rewrite Hh, Hm.
Qed.

(** *** C2 *)


(** *** The visit distribution *)









(** *** C5 (as the code has it) *)








(** *** C4 *)


(** *** Running an episode *)

Lemma run_ok {A} (m : M A) (σ : mcts) :
  is_ok (m σ).1 = true → ∃ a, m σ = (Ok a, (m σ).2).
Proof. destruct (m σ) as [[a| |] σ']; [by exists a|done|done]. Qed.

Lemma episode_search_run fuel root (σ : mcts) :
  episode σ →
  is_ok (mc_tree_search fuel root σ).1 = true →
  episode (mc_tree_search fuel root σ).2.
Proof.
  intros Hep Hok. destruct (run_ok _ _ Hok) as [res E].
  by eapply episode_search.
Qed.

(** On a state that has not been visited yet every score is NaN and
    [select_action] returns the first legal action. *)
Lemma score_unvisited p0 c h m : score ln_q sqrt_q p0 c h 0 m = NaN.
Proof.
  unfold score, np_log, xdiv.
  pose proof (of_nat_nonneg m) as Hm.
  destruct (of_nat m + 1 ?= 0)%Q eqn:E.
  - apply Qeq_alt in E. lra.
  - apply Qlt_alt in E. lra.
  - by destruct p0.
Qed.

Lemma arg_from_nan better best i l : arg_from better NaN best i l = best.
Proof. by destruct l. Qed.

Lemma select_action_unvisited (σ : mcts) (s : State) (c : Q) first rest :
  get_legal_actions s = first :: rest →
  expanded σ s →
  visit_counts_s σ !! s = Some 0 →
  ∃ σ', select_action s c σ = (Ok first, σ').
Proof.
  intros El (_ & _ & Hkeys) Hn. unfold select_action.
  destruct (p0_to_play s).
  - destruct (map_each_action_value true s c 0 _ σ Hn Hkeys) as [σ' E].
    exists σ'. rewrite bind_run, E. cbv beta iota.
    rewrite El. cbn [map]. rewrite score_unvisited.
    rewrite bind_run. unfold call, np_argmax, arg_extreme.
    by rewrite arg_from_nan.
  - destruct (map_each_action_value false s c 0 _ σ Hn Hkeys) as [σ' E].
    exists σ'. rewrite bind_run, E. cbv beta iota.
    rewrite El. cbn [map]. rewrite score_unvisited.
    rewrite bind_run. unfold call, np_argmin, arg_extreme.
    by rewrite arg_from_nan.
Qed.

(** *** Further properties: what [select_action] can do *)

Lemma arg_from_bound better (l : list xfloat) :
  ∀ mp best i, best < i → arg_from better mp best i l < i + length l.
Proof.
  induction l as [|x l IH]; intros mp best i Hlt; simpl; [lia|].
  destruct (is_nan mp); [lia|].
  destruct (better x mp).
  - specialize (IH x i (S i)). lia.
  - specialize (IH mp best (S i)). lia.
Qed.

Lemma arg_extreme_bound better (l : list xfloat) :
  l ≠ [] → ∃ i, arg_extreme better l = Ok i ∧ i < length l.
Proof.
  destruct l as [|x l]; [done|]. intros _. eexists. split; [done|].
  pose proof (arg_from_bound better l x 0 1). simpl. lia.
Qed.

(** The list of scores is computed in full, every entry being there,
    or the first missing entry raises [KeyError]. *)
Lemma map_each_action_value_result p0 s c (l : list Action) :
  ∀ σ : mcts,
    ∃ σ',
      (map_each l (action_value p0 s c) σ = (Raise KeyError, σ') ∧
       (visit_counts_s σ !! s = None ∨
        ∃ a, a ∈ l ∧ (visit_counts_sa σ !! (s, a) = None ∨
                      heuristic σ !! (s, a) = None))) ∨
      (∃ vals, map_each l (action_value p0 s c) σ = (Ok vals, σ') ∧
               length vals = length l ∧
               (l = [] ∨ is_Some (visit_counts_s σ !! s)) ∧
               ∀ a, a ∈ l → is_Some (visit_counts_sa σ !! (s, a)) ∧
                            is_Some (heuristic σ !! (s, a))).
Proof.
  induction l as [|a l IH]; intros σ.
  { exists σ. right. exists []. split; [done|]. split; [done|].
    split; [by left|]. intros a Ha. by apply not_elem_of_nil in Ha. }
  cbn [map_each]. setoid_rewrite bind_run. rewrite action_value_run.
  destruct (heuristic σ !! (s, a)) as [h|] eqn:Eh.
  2:{ exists σ. left. split; [done|].
      right. exists a. split; [by left|by right]. }
  destruct (visit_counts_s σ !! s) as [n|] eqn:En.
  2:{ exists σ. left. split; [done|by left]. }
  cbv zeta.
  destruct (visit_counts_sa σ !! (s, a)) as [m|] eqn:Em.
  2:{ eexists. left. split; [done|].
      right. exists a. split; [by left|by left]. }
  destruct (IH (set_log_args (log_args σ ++ [n]) σ))
    as (σ' & [[E Hmiss]|(vals & E & Hlen & _ & Hkeys)]).
  - exists σ'. left. cbv beta iota. rewrite bind_run, E.
    split; [done|]. destruct Hmiss as [Hmiss|(b & Hb & Hmiss)].
    + simpl in Hmiss. congruence.
    + right. exists b. split; [by right|done].
  - exists σ'. right. exists (score ln_q sqrt_q p0 c h n m :: vals).
    cbv beta iota. rewrite bind_run, E. split; [done|].
    split; [simpl; by rewrite Hlen|]. split; [right; by eexists|].
    intros b Hb. apply elem_of_cons in Hb as [->|Hb].
    + split; by eexists.
    + by apply Hkeys.
Qed.

Lemma select_action_cases (σ : mcts) (s : State) (c : Q) :
  get_legal_actions s ≠ [] →
  (∃ σ', select_action s c σ = (Raise KeyError, σ') ∧ ¬ keyed σ s) ∨
  (∃ a σ', select_action s c σ = (Ok a, σ') ∧
           a ∈ get_legal_actions s ∧ keyed σ s).
Proof.
  intros Hne.
  assert (∀ p0 (better : xfloat → xfloat → bool),
    (∃ σ', (vals ← map_each (get_legal_actions s) (action_value p0 s c);
            i ← call (arg_extreme better vals);
            match get_legal_actions s !! i with
            | Some a => ret a
            | None => raise IndexError
            end) σ = (Raise KeyError, σ') ∧ ¬ keyed σ s) ∨
    (∃ a σ', (vals ← map_each (get_legal_actions s) (action_value p0 s c);
              i ← call (arg_extreme better vals);
              match get_legal_actions s !! i with
              | Some a => ret a
              | None => raise IndexError
              end) σ = (Ok a, σ') ∧
             a ∈ get_legal_actions s ∧ keyed σ s)) as Hgen.
  { intros p0 better.
    destruct (map_each_action_value_result p0 s c (get_legal_actions s) σ)
      as (σ' & [[E Hmiss]|(vals & E & Hlen & Hs & Hkeys)]).
    - left. exists σ'. rewrite bind_run, E. split; [done|].
      intros [[n Hn] Hk]. destruct Hmiss as [?|(a & Ha & Hmiss)];
        [congruence|].
      destruct (Hk a Ha) as [[? ?] [? ?]]. destruct Hmiss; congruence.
    - right. rewrite bind_run, E. cbv beta iota.
      destruct (arg_extreme_bound better vals) as (i & Ei & Hi).
      { intros ->. destruct (get_legal_actions s); done. }
      rewrite bind_run. unfold call. rewrite Ei. cbv beta iota.
      rewrite Hlen in Hi. apply lookup_lt_is_Some in Hi as [a Ha].
      rewrite Ha. exists a, σ'. split; [done|].
      split; [by eapply list_elem_of_lookup_2|].
      split; [by destruct Hs|done]. }
  unfold select_action. destruct (p0_to_play s); apply Hgen.
Qed.

(** X8. [select_action] raises [ValueError] on a state without legal
    action; on a state with legal actions it returns one of them when
    every entry it looks up is there, and raises [KeyError] when one is
    missing.  In each case the tree and the three dictionaries are left
    as they were. *)
Theorem select_action_outcomes (σ : mcts) (s : State) (c : Q) :
  (get_legal_actions s = [] →
   select_action s c σ = (Raise ValueError, σ)) ∧
  (get_legal_actions s ≠ [] → keyed σ s →
   ∃ a σ', select_action s c σ = (Ok a, σ') ∧
           a ∈ get_legal_actions s ∧ same_stats σ σ') ∧
  (get_legal_actions s ≠ [] → ¬ keyed σ s →
   ∃ σ', select_action s c σ = (Raise KeyError, σ') ∧ same_stats σ σ').
Proof.
  assert (∀ r σ', select_action s c σ = (r, σ') → same_stats σ σ') as Hst.
  { intros r σ' E. by apply select_action_reads in E as [? _]. }
  split; [|split].
  - intros El. unfold select_action. rewrite El. by destruct (p0_to_play s).
  - intros Hne Hk.
    destruct (select_action_cases σ s c Hne)
      as [(σ' & _ & Hnk)|(a & σ' & E & Ha & _)]; [done|].
    exists a, σ'. split; [done|]. split; [done|]. by eapply Hst.
  - intros Hne Hnk.
    destruct (select_action_cases σ s c Hne)
      as [(σ' & E & _)|(a & σ' & E & _ & Hk)]; [|done].
    exists σ'. split; [done|]. by eapply Hst.
Qed.

(** *** Further properties: what [get_visited_distribution] can do *)




(** *** Further properties: expansion and backup *)

(** X10. [new_node] always returns.  It puts the state in the tree and
    gives it a visit count of 0 and, for each of its legal actions, a
    visit count of 0 and a value of 0, whatever was stored for the
    state before; the entries of every other state are left as they
    were. *)
Theorem new_node_resets_state (σ : mcts) (s : State) :
  ∃ σ', new_node s σ = (Ok tt, σ') ∧
        tree σ' = {[s]} ∪ tree σ ∧
        visit_counts_s σ' !! s = Some 0 ∧
        (∀ a, a ∈ get_legal_actions s →
              visit_counts_sa σ' !! (s, a) = Some 0 ∧
              heuristic σ' !! (s, a) = Some 0%Q) ∧
        (∀ s', s' ≠ s →
               visit_counts_s σ' !! s' = visit_counts_s σ !! s' ∧
               ∀ a, visit_counts_sa σ' !! (s', a)
                    = visit_counts_sa σ !! (s', a) ∧
                    heuristic σ' !! (s', a) = heuristic σ !! (s', a)).
Proof.
  destruct (new_node_run s σ) as (σ' & E & Ht & Hs & Hc & Hh & _).
  exists σ'. split; [done|]. split; [done|].
  split; [by rewrite Hs, lookup_insert_eq|]. split.
  - intros a Ha. rewrite Hc, Hh. simpl. by rewrite !decide_True.
  - intros s' Hne. split; [by rewrite Hs, lookup_insert_ne|].
    intros a. rewrite Hc, Hh. simpl.
    rewrite !decide_False; [done|by intros [? _]|by intros [? _]].
Qed.

(** X11. [backup] is not atomic.  When the first pair of the path has a
    state with a visit count but no count for the pair itself, [backup]
    raises [KeyError] after it has incremented the count of the state:
    nothing else is changed, and the count of the state no longer is
    the sum of the counts of its actions. *)
Theorem backup_stops_half_way
    (σ : mcts) (s : State) (a : Action) (vs : list State)
    (acts : list Action) (v : Q) (n : nat) :
  visit_counts_s σ !! s = Some n →
  visit_counts_sa σ !! (s, a) = None →
  ∃ σ', backup (s :: vs) (a :: acts) v σ = (Raise KeyError, σ') ∧
        visit_counts_s σ' = <[s := n + 1]> (visit_counts_s σ) ∧
        visit_counts_sa σ' = visit_counts_sa σ ∧
        heuristic σ' = heuristic σ ∧
        tree σ' = tree σ ∧
        (counts_ok σ → count_s σ' s = sum_sa σ' s + 1).
Proof.
  intros Es Ec. eexists. split.
  { unfold backup. simpl. rewrite bind_run, backup_pair_run. simpl.
    rewrite Es, Ec. reflexivity. }
  simpl. split; [done|]. split; [done|]. split; [done|]. split; [done|].
  intros HC. unfold count_s. simpl. rewrite lookup_insert_eq. simpl.
  rewrite (HC s n Es). done.
Qed.

Lemma length_filter_cons_eq {A} (P : A → Prop) `{∀ x, Decision (P x)}
    (x : A) (l : list A) :
  length (filter P (x :: l))
  = (if decide (P x) then 1 else 0) + length (filter P l).
Proof. rewrite filter_cons. by destruct (decide (P x)). Qed.

Lemma backup_counts
    (σ σ' : mcts) (vs : list State) (acts : list Action) (v : Q) :
  backup vs acts v σ = (Ok tt, σ') →
  (∀ s, count_s σ' s
        = count_s σ s + length (filter (λ k, k.1 = s) (zip vs acts))) ∧
  (∀ s a, count_sa σ' s a
          = count_sa σ s a
            + length (filter (λ k, k = (s, a)) (zip vs acts))) ∧
  (∀ s, is_Some (visit_counts_s σ' !! s) ↔ is_Some (visit_counts_s σ !! s)).
Proof.
  unfold backup. generalize (zip vs acts) as pairs. clear vs acts.
  intros pairs. revert σ.
  induction pairs as [|k pairs IH]; intros σ E.
  { injection E as <-. split; [|split]; intros; simpl; [lia|lia|done]. }
  simpl in E. apply bind_ok_inv in E as ([] & σ1 & E1 & E).
  apply backup_pair_ok_inv in E1 as (n_s & n_sa & h & Es & Ec & Eh & ->).
  destruct (IH _ E) as (Hs & Hc & Hk). split; [|split].
  - intros s. rewrite Hs, length_filter_cons_eq. unfold count_s. simpl.
    destruct (decide (k.1 = s)) as [<-|Hne].
    + rewrite lookup_insert_eq, Es. simpl. lia.
    + rewrite lookup_insert_ne by done. lia.
  - intros s a. rewrite Hc, length_filter_cons_eq. unfold count_sa. simpl.
    destruct (decide (k = (s, a))) as [->|Hne].
    + rewrite lookup_insert_eq, Ec. simpl. lia.
    + rewrite lookup_insert_ne by done. lia.
  - intros s. rewrite Hk. simpl. apply is_Some_insert_same. by rewrite Es.
Qed.

(** X12. A backup that returns adds to the visit count of each state
    the number of times the state occurs on the path, and to the count
    of each pair the number of times the pair occurs. *)
Theorem backup_counts_occurrences
    (σ σ' : mcts) (vs : list State) (acts : list Action) (v : Q) :
  backup vs acts v σ = (Ok tt, σ') →
  (∀ s, count_s σ' s
        = count_s σ s + length (filter (λ k, k.1 = s) (zip vs acts))) ∧
  (∀ s a, count_sa σ' s a
          = count_sa σ s a
            + length (filter (λ k, k = (s, a)) (zip vs acts))) ∧
  (∀ s, is_Some (visit_counts_s σ' !! s) ↔ is_Some (visit_counts_s σ !! s)).
Proof. apply backup_counts. Qed.

(** *** Further properties: the descent and the rollout *)

Lemma select_action_ok_legal (σ : mcts) s c a σ' :
  select_action s c σ = (Ok a, σ') → a ∈ get_legal_actions s.
Proof.
  intros E. destruct (get_legal_actions s) as [|first rest] eqn:El.
  - unfold select_action in E. rewrite El in E.
    by destruct (p0_to_play s).
  - destruct (select_action_cases σ s c) as [(σ1 & E1 & _)|(b & σ1 & E1 & Hb & _)].
    + by rewrite El.
    + congruence.
    + rewrite E1 in E. injection E as <- _. by rewrite <- El.
Qed.

Lemma simulate_tree_loop_path fuel c :
  ∀ vs acts (σ : mcts) vs' acts' σ' s0,
    state σ = Some s0 →
    simulate_tree_loop fuel c vs acts σ = (Ok (vs', acts'), σ') →
    ∃ path sf,
      game_path s0 path sf ∧
      Forall (λ k, k.1 ∈ tree σ ∧ state_is_final k.1 = false) path ∧
      acts' = acts ++ path.*2 ∧
      state σ' = Some sf ∧
      ((state_is_final sf = true ∧ vs' = vs ++ path.*1 ∧ reads σ σ') ∨
       (state_is_final sf = false ∧ sf ∉ tree σ ∧
        vs' = vs ++ path.*1 ++ [sf] ∧
        ∃ σm, reads σ σm ∧ new_node sf σm = (Ok tt, σ'))).
Proof.
  induction fuel as [|fuel IH]; intros vs acts σ vs' acts' σ' s0 Hs0 E;
    [done|].
  simpl in E. apply bind_ok_inv in E as (s & σ0 & E0 & E).
  apply current_state_inv in E0 as [-> Es].
  rewrite Hs0 in Es. injection Es as <-.
  destruct (state_is_final s0) eqn:Ef.
  { injection E as <- <- <-. exists [], s0. simpl. rewrite !app_nil_r.
    split; [constructor|]. split; [constructor|]. split; [done|].
    split; [done|]. left. split; [done|]. split; [done|reflexivity]. }
  rewrite bind_run in E. simpl in E. case_decide as Hin.
  - apply bind_ok_inv in E as ([] & σ1 & E1 & E).
    injection E as <- <- <-. exists [], s0. simpl. rewrite app_nil_r.
    split; [constructor|]. split; [constructor|]. split; [done|].
    destruct (new_node_run s0 σ) as (σ1' & E1' & _ & _ & _ & _ & Hst & _).
    rewrite E1 in E1'. injection E1' as <-.
    split; [by rewrite Hst|]. right. split; [done|]. split; [done|].
    split; [done|]. exists σ. split; [reflexivity|done].
  - apply bind_ok_inv in E as (a & σ1 & E1 & E).
    pose proof (select_action_ok_legal _ _ _ _ _ E1) as Ha.
    apply select_action_reads in E1.
    apply bind_ok_inv in E as (child & σ2 & E2 & E).
    injection E2 as E2 <-.
    apply bind_ok_inv in E as ([] & σ3 & E3 & E).
    injection E3 as <-.
    assert (reads σ (set_state (Some child) σ1)) as Hr.
    { etrans; [exact E1|]. apply reads_set_state. }
    pose proof (reads_tree _ _ Hr) as Ht. unfold same_tree in Ht.
    apply (IH _ _ (set_state (Some child) σ1) _ _ _ child eq_refl) in E
      as (path & sf & Hpath & Hall & -> & Hsf & Hcases).
    exists ((s0, a) :: path), sf.
    split; [by econstructor|]. split.
    { constructor; [done|]. eapply Forall_impl; [exact Hall|].
      intros k [? ?]. split; [by rewrite <- Ht|done]. }
    split; [simpl; by rewrite <- app_assoc|]. split; [done|].
    destruct Hcases as [(Hf & -> & Hr')|(Hf & Hnin & -> & σm & Hr' & En)].
    + left. split; [done|]. split; [simpl; by rewrite <- app_assoc|].
      by etrans.
    + right. split; [done|]. split; [by rewrite <- Ht|].
      split; [simpl; by rewrite <- !app_assoc|].
      exists σm. split; [by etrans|done].
Qed.

(** X13. When the descent returns, the pairs it recorded form a path of
    the game from the root: each state was in the tree and not final,
    each action was legal in its state and led to the next state.  The
    path ends at a final state, with no statistic changed, or at a state
    that was not in the tree, is not final, has just been expanded and
    closes the list of visited states. *)
Theorem descent_is_a_path
    (σ : mcts) (fuel : nat) (root : State)
    (vs : list State) (acts : list Action) (σ' : mcts) :
  state σ = Some root →
  simulate_tree fuel σ = (Ok (vs, acts), σ') →
  ∃ path sf,
    game_path root path sf ∧
    Forall (λ k, k.1 ∈ tree σ ∧ state_is_final k.1 = false) path ∧
    acts = path.*2 ∧
    state σ' = Some sf ∧
    ((state_is_final sf = true ∧ vs = path.*1 ∧ same_stats σ σ') ∨
     (state_is_final sf = false ∧ sf ∉ tree σ ∧ vs = path.*1 ++ [sf] ∧
      tree σ' = {[sf]} ∪ tree σ)).
Proof.
  intros Hroot E. unfold simulate_tree in E. rewrite bind_run in E.
  simpl in E.
  apply (simulate_tree_loop_path _ _ _ _ _ _ _ _ root Hroot) in E
    as (path & sf & Hpath & Hall & Hacts & Hsf & Hcases).
  exists path, sf. split; [done|]. split; [done|]. split; [done|].
  split; [done|].
  destruct Hcases as [(Hf & Hvs & Hr)|(Hf & Hnin & Hvs & σm & Hr & En)].
  - left. split; [done|]. split; [done|]. by destruct Hr.
  - right. split; [done|]. split; [done|]. split; [done|].
    destruct (new_node_run sf σm) as (σ1 & E1 & Ht & _).
    rewrite En in E1. injection E1 as <-. rewrite Ht.
    apply reads_tree in Hr. unfold same_tree in Hr. by rewrite Hr.
Qed.

(** X14. The two lists a simulation passes to [backup] have the same
    length: [zip] drops nothing. *)
Theorem backup_lists_aligned
    (σ : mcts) (fuel : nat) (vs : list State) (acts : list Action)
    (σ1 : mcts) (v : Q) (first : option Action) (σ2 : mcts) :
  simulate_tree fuel σ = (Ok (vs, acts), σ1) →
  simulate_default fuel σ1 = (Ok (v, first), σ2) →
  length vs = length (match first with
                      | Some a => acts ++ [a]
                      | None => acts
                      end).
Proof.
  intros E1 E2. unfold simulate_tree in E1. rewrite bind_run in E1.
  simpl in E1.
  apply simulate_tree_loop_ok in E1 as (path & -> & Hcases). simpl.
  destruct Hcases as [(-> & Hr & sf & Hsf & Hfin)
                     |(leaf & σm & -> & Hl & Hr & Hm & En)].
  - pose proof (simulate_default_first _ _ _ _ _ _ Hsf E2) as Hfirst.
    rewrite Hfin in Hfirst. subst first. simpl.
    by rewrite !length_fmap.
  - destruct (new_node_run leaf σm) as (σ1' & En' & _ & _ & _ & _ & Hst & _).
    rewrite En in En'. injection En' as <-.
    assert (state σ1 = Some leaf) as Hleaf by (by rewrite Hst).
    pose proof (simulate_default_first _ _ _ _ _ _ Hleaf E2) as Hfirst.
    rewrite Hl in Hfirst. destruct Hfirst as [a ->].
    simpl. by rewrite !length_app, !length_fmap.
Qed.

Lemma simulate_default_loop_final fuel :
  ∀ (σ σ' : mcts),
    simulate_default_loop fuel σ = (Ok tt, σ') →
    ∃ sf, state σ' = Some sf ∧ state_is_final sf = true.
Proof.
  induction fuel as [|fuel IH]; intros σ σ' E; [done|].
  simpl in E. apply bind_ok_inv in E as (s & σ0 & E0 & E).
  apply current_state_inv in E0 as [-> Es].
  destruct (state_is_final s) eqn:Ef.
  - injection E as <-. eauto.
  - apply bind_ok_inv in E as (a & σ1 & _ & E). by eapply IH.
Qed.

Lemma simulate_default_result
    (σ : mcts) (fuel : nat) (s0 : State)
    (v : Q) (first : option Action) (σ' : mcts) :
  state σ = Some s0 →
  simulate_default fuel σ = (Ok (v, first), σ') →
  (∃ sf, state σ' = Some sf ∧ state_is_final sf = true ∧
         v = of_bool (winner_is_p0 sf)) ∧
  same_stats σ σ' ∧
  log_args σ' = log_args σ ∧
  first = (if state_is_final s0 then None
           else Some (propose_action s0 (epsilon σ) (policy σ)).1).
Proof.
  intros Hs0 E.
  pose proof (simulate_default_idles _ _ _ _ E) as (Hst & _ & Hq).
  split; [|split; [done|split; [done|]]].
  - unfold simulate_default in E.
    apply bind_ok_inv in E as (s & σ1 & _ & E).
    apply bind_ok_inv in E as (f & σ2 & _ & E).
    apply bind_ok_inv in E as ([] & σ3 & E3 & E).
    apply simulate_default_loop_final in E3 as (sf & Hsf & Hfin).
    apply bind_ok_inv in E as (s' & σ4 & E4 & E).
    apply current_state_inv in E4 as [-> Es'].
    injection E as <- <- <-. rewrite Hsf in Es'. injection Es' as <-.
    by exists sf.
  - unfold simulate_default in E.
    apply bind_ok_inv in E as (s & σ1 & E0 & E).
    apply current_state_inv in E0 as [-> Es].
    rewrite Hs0 in Es. injection Es as <-.
    apply bind_ok_inv in E as (f & σ2 & E1 & E).
    apply bind_ok_inv in E as ([] & σ3 & _ & E).
    apply bind_ok_inv in E as (s' & σ4 & _ & E).
    injection E as _ <- _.
    destruct (state_is_final s0); [by injection E1 as <- _|].
    apply bind_ok_inv in E1 as (a & σ5 & E1 & E1').
    injection E1' as <- _. f_equal.
    unfold default_move in E1.
    apply bind_ok_inv in E1 as (s & σ6 & E6 & E1).
    apply current_state_inv in E6 as [-> Es].
    rewrite Hs0 in Es. injection Es as <-.
    rewrite bind_run in E1. unfold gets in E1. cbv beta iota in E1.
    rewrite bind_run in E1. cbv beta iota in E1.
    destruct (propose_action s0 (epsilon σ) (policy σ)) as [a' pol'].
    apply bind_ok_inv in E1 as ([] & σ7 & _ & E1).
    apply bind_ok_inv in E1 as (child & σ8 & _ & E1).
    apply bind_ok_inv in E1 as ([] & σ9 & _ & E1).
    by injection E1 as <- _.
Qed.

(** X15. When the rollout returns, the game is at a final state, the
    outcome is the win indicator of player 0 at that state, no
    statistic has changed and [np.log] has not been called; the first
    action is missing exactly when the rollout started at a final
    state, and otherwise it is the first proposal of the default
    policy. *)
Theorem rollout_ends_at_final_state
    (σ : mcts) (fuel : nat) (s0 : State)
    (v : Q) (first : option Action) (σ' : mcts) :
  state σ = Some s0 →
  simulate_default fuel σ = (Ok (v, first), σ') →
  (∃ sf, state σ' = Some sf ∧ state_is_final sf = true ∧
         v = of_bool (winner_is_p0 sf)) ∧
  same_stats σ σ' ∧
  log_args σ' = log_args σ ∧
  first = (if state_is_final s0 then None
           else Some (propose_action s0 (epsilon σ) (policy σ)).1).
Proof. apply simulate_default_result. Qed.

(** *** Further properties: final states *)

Lemma simulate_new_states fuel root (σ σ' : mcts) s :
  simulate fuel root σ = (Ok tt, σ') →
  s ∈ tree σ' → s ∈ tree σ ∨ state_is_final s = false.
Proof.
  intros E Hin. apply simulate_cases in E. simpl in E.
  destruct E as [([=] & _)|(vs & acts & σ1 & E1 & E)].
  destruct E as [([=] & _)|(v & first & σ2 & E2 & E)].
  apply simulate_default_reads, reads_tree in E2.
  apply backup_tree in E. unfold same_tree in *. rewrite E, E2 in Hin.
  unfold simulate_tree in E1. rewrite bind_run in E1. simpl in E1.
  apply simulate_tree_loop_ok in E1 as (path & _ & Hcases).
  destruct Hcases as [(_ & Hr & _)|(leaf & σm & _ & Hl & Hr & _ & En)].
  - apply reads_tree in Hr. unfold same_tree in Hr. rewrite Hr in Hin.
    by left.
  - destruct (new_node_run leaf σm) as (σ1' & En' & Ht & _).
    rewrite En in En'. injection En' as <-. rewrite Ht in Hin.
    apply reads_tree in Hr. unfold same_tree in Hr. rewrite Hr in Hin.
    apply elem_of_union in Hin as [Hin|Hin]; [|by left].
    apply elem_of_singleton in Hin as ->. by right.
Qed.

Lemma simulate_times_new_states n fuel root s :
  ∀ σ σ' : mcts,
    simulate_times n fuel root σ = (Ok tt, σ') →
    s ∈ tree σ' → s ∈ tree σ ∨ state_is_final s = false.
Proof.
  induction n as [|n IH]; intros σ σ' E Hin.
  { injection E as <-. by left. }
  simpl in E. apply bind_ok_inv in E as ([] & σ1 & E1 & E).
  destruct (IH _ _ E Hin) as [Hin1|?]; [|by right].
  by eapply simulate_new_states.
Qed.

Lemma episode_tree_not_final (σ : mcts) s :
  episode σ → s ∈ tree σ → state_is_final s = false.
Proof.
  induction 1 as [σ0|σ fuel root σ' _ IH E|σ fuel root [a d] σ' _ IH E];
    intros Hin.
  - simpl in Hin. set_solver.
  - destruct (simulate_new_states _ _ _ _ _ E Hin); auto.
  - apply mc_tree_search_ok_inv in E as (σ1 & σ2 & E1 & E2 & E3).
    apply select_action_reads, reads_tree in E2.
    apply get_visited_distribution_reads, reads_tree in E3.
    unfold same_tree in *. rewrite E3, E2 in Hin. simpl in Hin.
    destruct (simulate_times_new_states _ _ _ _ _ _ E1 Hin); auto.
Qed.

Lemma final_state_keys (σ : mcts) (s : State) :
  episode σ →
  state_is_final s = true →
  s ∉ tree σ ∧
  visit_counts_s σ !! s = None ∧
  ∀ a, visit_counts_sa σ !! (s, a) = None ∧ heuristic σ !! (s, a) = None.
Proof.
  intros Hep Hf.
  assert (s ∉ tree σ) as Hnin.
  { intros Hin. pose proof (episode_tree_not_final _ _ Hep Hin). congruence. }
  destruct (episode_inv _ Hep) as ((K1 & K2 & K3) & _).
  split; [done|]. split.
  - apply eq_None_not_Some. intros Hs. by apply K1 in Hs.
  - intros a. split; apply eq_None_not_Some; intros Hs.
    + by apply K2 in Hs as [? _].
    + by apply K3 in Hs as [? _].
Qed.

(** X16. In an episode no final state is ever expanded: a final state
    is not in the tree and has no entry in any of the three
    dictionaries. *)
Theorem final_states_never_expanded (σ : mcts) (s : State) :
  episode σ →
  state_is_final s = true →
  s ∉ tree σ ∧
  visit_counts_s σ !! s = None ∧
  ∀ a, visit_counts_sa σ !! (s, a) = None ∧ heuristic σ !! (s, a) = None.
Proof. apply final_state_keys. Qed.

Lemma simulate_tree_final fuel s (σ : mcts) :
  state σ = Some s → state_is_final s = true →
  simulate_tree (S fuel) σ = (Ok ([], []), σ).
Proof.
  intros Hs Hf. unfold simulate_tree. rewrite bind_run. simpl.
  rewrite bind_run. unfold current_state. rewrite bind_run. simpl.
  rewrite Hs. simpl. by rewrite Hf.
Qed.

Lemma simulate_default_final fuel s (σ : mcts) :
  state σ = Some s → state_is_final s = true →
  simulate_default (S fuel) σ
  = (Ok (of_bool (winner_is_p0 s), None), σ).
Proof.
  intros Hs Hf. unfold simulate_default.
  assert (current_state σ = (Ok s, σ)) as Ec.
  { unfold current_state. rewrite bind_run. simpl. by rewrite Hs. }
  assert (simulate_default_loop (S fuel) σ = (Ok tt, σ)) as El.
  { cbn [simulate_default_loop]. rewrite bind_run, Ec. cbv beta iota.
    by rewrite Hf. }
  rewrite bind_run, Ec. cbv beta iota. rewrite Hf.
  rewrite bind_run. unfold ret at 1. cbv beta iota.
  rewrite bind_run, El. cbv beta iota.
  by rewrite bind_run, Ec.
Qed.

Lemma simulate_final_root fuel root (σ : mcts) :
  state_is_final root = true →
  simulate (S fuel) root σ = (Ok tt, set_state (Some root) σ).
Proof.
  intros Hf. unfold simulate. rewrite bind_run. simpl.
  rewrite bind_run, (simulate_tree_final _ root) by done.
  cbv beta iota.
  by rewrite bind_run, (simulate_default_final _ root).
Qed.

(** X17. A simulation from a final root only sets the current state:
    the descent and the rollout stop at once, [backup] receives two
    empty lists, and the simulation returns with the tree, the
    dictionaries and the default policy as they were. *)
Theorem simulate_on_final_root (σ : mcts) (fuel : nat) (root : State) :
  state_is_final root = true →
  1 ≤ fuel →
  simulate fuel root σ = (Ok tt, set_state (Some root) σ).
Proof.
  intros Hf Hfuel. destruct fuel as [|fuel]; [lia|].
  by apply simulate_final_root.
Qed.

Lemma simulate_times_final_root n fuel root :
  state_is_final root = true →
  ∀ σ : mcts,
    ∃ σ', simulate_times n (S fuel) root σ = (Ok tt, σ') ∧
          set_state (Some root) σ' = set_state (Some root) σ.
Proof.
  intros Hf. induction n as [|n IH]; intros σ.
  { by exists σ. }
  simpl. rewrite bind_run, simulate_final_root by done.
  destruct (IH (set_state (Some root) σ)) as (σ' & E & Hσ').
  exists σ'. split; [done|]. by rewrite Hσ'.
Qed.

(** X18. In an episode a decision at a final root never returns: every
    simulation leaves the statistics alone, and [select_action] then
    raises [ValueError] when the root has no legal action and
    [KeyError] when it has one.  The tree and the dictionaries are as
    they were before the call. *)
Theorem decision_at_final_root_raises
    (σ : mcts) (fuel : nat) (root : State) :
  episode σ →
  state_is_final root = true →
  1 ≤ fuel →
  ∃ σ', mc_tree_search fuel root σ
        = (Raise (if decide (get_legal_actions root = []) then ValueError
                  else KeyError), σ') ∧
        same_stats σ σ'.
Proof.
  intros Hep Hf Hfuel. destruct fuel as [|fuel]; [lia|].
  destruct (final_state_keys σ root Hep Hf) as (_ & Hs & _).
  destruct (simulate_times_final_root (simulations σ) fuel root Hf σ)
    as (σ1 & E1 & Hσ1).
  unfold mc_tree_search. rewrite bind_run. simpl.
  rewrite bind_run, E1. cbv beta iota. rewrite bind_run. simpl.
  rewrite Hσ1. rewrite bind_run.
  case_decide as Hl.
  - exists (set_state (Some root) σ). split; [|done].
    unfold select_action. rewrite Hl. by destruct (p0_to_play root).
  - destruct (select_action_cases (set_state (Some root) σ) root 0%Q Hl)
      as [(σ' & E & _)|(a & σ' & _ & _ & [[n Hn] _])].
    + rewrite E. exists σ'. split; [done|].
      apply select_action_reads in E as [E _]. by destruct E as (?&?&?&?).
    + simpl in Hn. congruence.
Qed.

(** *** Further properties: what one simulation credits *)

Lemma zeroed_config s l (σ : mcts) :
  epsilon (zeroed s l σ) = epsilon σ ∧ policy (zeroed s l σ) = policy σ.
Proof.
  revert σ. induction l as [|a l IH]; intros σ; [done|].
  simpl. by destruct (IH (set_heuristic (<[(s, a) := 0%Q]> (heuristic σ))
                  (set_visit_counts_sa
                     (<[(s, a) := 0]> (visit_counts_sa σ)) σ))) as (-> & ->).
Qed.

Lemma new_node_config s (σ σ' : mcts) :
  new_node s σ = (Ok tt, σ') →
  epsilon σ' = epsilon σ ∧ policy σ' = policy σ.
Proof.
  assert (new_node s σ
          = (Ok tt, zeroed s (get_legal_actions s)
                      (set_visit_counts_s (<[s := 0]> (visit_counts_s σ))
                         (set_tree ({[s]} ∪ tree σ) σ)))) as ->.
  { unfold new_node. rewrite !bind_run. simpl. apply for_each_zeroed. }
  intros [= <-]. by destruct (zeroed_config s (get_legal_actions s)
    (set_visit_counts_s (<[s := 0]> (visit_counts_s σ))
       (set_tree ({[s]} ∪ tree σ) σ))) as (-> & ->).
Qed.

Lemma game_path_starts s path sf :
  game_path s path sf →
  (path = [] ∧ sf = s) ∨ ∃ a rest, path = (s, a) :: rest.
Proof. destruct 1; [by left|right; eauto]. Qed.

Lemma simulate_credits_root fuel root (σ σ' : mcts) :
  keys_ok σ →
  state_is_final root = false →
  simulate fuel root σ = (Ok tt, σ') →
  count_s σ root + 1 ≤ count_s σ' root.
Proof.
  intros (K1 & _) Hnf E. apply simulate_cases in E. simpl in E.
  destruct E as [([=] & _)|(vs & acts & σ1 & E1 & E)].
  destruct E as [([=] & _)|(v & first & σ2 & E2 & E)].
  unfold simulate_tree in E1. rewrite bind_run in E1. simpl in E1.
  apply (simulate_tree_loop_path _ _ _ _ (set_state (Some root) σ) _ _ _
           root eq_refl) in E1
    as (path & sf & Hpath & Hall & -> & Hsf & Hcases).
  apply game_path_starts in Hpath. simpl in *.
  destruct Hcases as [(Hf & -> & Hr)|(Hf & Hnin & -> & σm & Hr & En)].
  - pose proof (simulate_default_first _ _ _ _ _ _ Hsf E2) as Hfirst.
    rewrite Hf in Hfirst. subst first.
    apply simulate_default_reads in E2 as [(_ & _ & E2 & _) _].
    destruct Hr as [(_ & _ & Hr & _) _]. simpl in Hr.
    apply backup_counts in E as [-> _]. rewrite zip_fmap_fst_snd.
    unfold count_s. rewrite E2, Hr.
    destruct Hpath as [[_ ->]|(a & rest & ->)]; [congruence|].
    rewrite length_filter_cons_eq, decide_True by done. lia.
  - destruct (new_node_run sf σm) as (σ1' & En' & _ & Hs1 & _ & _ & Hst & _).
    rewrite En in En'. injection En' as <-.
    pose proof (simulate_default_first _ _ _ _ _ _ Hsf E2) as Hfirst.
    rewrite Hf in Hfirst. destruct Hfirst as [a ->].
    apply simulate_default_reads in E2 as [(_ & _ & E2 & _) _].
    destruct Hr as [(Ht & _ & Hr & _) _]. simpl in Hr, Ht.
    apply backup_counts in E as [-> _]. rewrite zip_snoc.
    assert (count_s σ2 root = count_s σ root) as ->.
    { unfold count_s. rewrite E2, Hs1, Hr.
      destruct (decide (sf = root)) as [->|Hne].
      - rewrite lookup_insert_eq.
        assert (visit_counts_s σ !! root = None) as ->; [|done].
        apply eq_None_not_Some. intros Hs. apply K1 in Hs.
        by apply Hnin.
      - by rewrite lookup_insert_ne. }
    destruct Hpath as [[-> ->]|(a0 & rest & ->)]; simpl;
      rewrite length_filter_cons_eq, decide_True by done; lia.
Qed.

Lemma simulate_times_credits_root n fuel root :
  state_is_final root = false →
  ∀ σ σ' : mcts,
    inv σ →
    simulate_times n fuel root σ = (Ok tt, σ') →
    count_s σ root + n ≤ count_s σ' root.
Proof.
  intros Hnf. induction n as [|n IH]; intros σ σ' Hinv E.
  { injection E as <-. lia. }
  simpl in E. apply bind_ok_inv in E as ([] & σ1 & E1 & E).
  pose proof (simulate_credits_root _ _ _ _ (proj1 Hinv) Hnf E1).
  apply IH in E; [lia|]. by eapply simulate_inv.
Qed.

(** X19. In an episode a decision that returns at a root that is not
    final has added at least [simulations] to the visit count of the
    root: every completed simulation credits the root at least once. *)
Theorem decision_credits_root
    (σ : mcts) (fuel : nat) (root : State)
    (res : Action * list xfloat) (σ' : mcts) :
  episode σ →
  state_is_final root = false →
  mc_tree_search fuel root σ = (Ok res, σ') →
  count_s σ root + simulations σ ≤ count_s σ' root.
Proof.
  intros Hep Hnf E. destruct res as [a d].
  apply mc_tree_search_ok_inv in E as (σ1 & σ2 & E1 & E2 & E3).
  apply simulate_times_credits_root in E1; [|done|by apply episode_inv].
  apply select_action_reads in E2 as [(_ & _ & E2 & _) _].
  apply get_visited_distribution_reads in E3 as [(_ & _ & E3 & _) _].
  unfold count_s in *. rewrite E3, E2. exact E1.
Qed.

(** X20. The first simulation from a root that is neither final nor in
    the tree.  When it returns, the root has been added to the tree
    with a visit count of 1; the action the default policy proposed
    first at the root is legal, has a visit count of 1 and the outcome
    of the rollout as its value; every other legal action of the root
    has a count of 0 and a value of 0; the other states keep their
    visit counts. *)
Theorem first_simulation_expands_root
    (σ : mcts) (fuel : nat) (root : State) (σ' : mcts) :
  episode σ →
  root ∉ tree σ →
  state_is_final root = false →
  simulate fuel root σ = (Ok tt, σ') →
  let a := (propose_action root (epsilon σ) (policy σ)).1 in
  a ∈ get_legal_actions root ∧
  tree σ' = {[root]} ∪ tree σ ∧
  visit_counts_s σ' !! root = Some 1 ∧
  visit_counts_sa σ' !! (root, a) = Some 1 ∧
  (∃ sf h, state σ' = Some sf ∧ state_is_final sf = true ∧
           heuristic σ' !! (root, a) = Some h ∧
           (h == of_bool (winner_is_p0 sf))%Q) ∧
  (∀ b, b ∈ get_legal_actions root → b ≠ a →
        visit_counts_sa σ' !! (root, b) = Some 0 ∧
        heuristic σ' !! (root, b) = Some 0%Q) ∧
  (∀ s, s ≠ root → visit_counts_s σ' !! s = visit_counts_s σ !! s).
Proof.
  intros Hep Hnin Hnf E a.
  destruct (episode_inv _ Hep) as ((K1 & K2 & K3) & _).
  apply simulate_cases in E. simpl in E.
  destruct E as [([=] & _)|(vs & acts & σ1 & E1 & E)].
  destruct E as [([=] & _)|(v & first & σ2 & E2 & E)].
  unfold simulate_tree in E1. rewrite bind_run in E1. simpl in E1.
  destruct fuel as [|fuel]; [done|]. simpl in E1.
  rewrite bind_run in E1. unfold current_state in E1.
  rewrite bind_run in E1. simpl in E1. rewrite Hnf in E1.
  rewrite bind_run in E1. simpl in E1.
  rewrite decide_True in E1 by done.
  destruct (new_node_run root (set_state (Some root) σ))
    as (σn & En & Ht & Hs & Hc & Hh & Hst & _).
  rewrite bind_run, En in E1. injection E1 as <- <- <-.
  destruct (new_node_config _ _ _ En) as [Heps Hpol]. simpl in *.
  destruct (simulate_default_result _ _ _ _ _ _ Hst E2)
    as ((sf & Hsf & Hfin & ->) & (Ht2 & Hh2 & Hs2 & Hc2) & _ & ->).
  rewrite Hnf, Heps, Hpol in E. fold a in E.
  unfold backup in E. simpl in E.
  apply bind_ok_inv in E as ([] & σ3 & E & E'). injection E' as <-.
  apply backup_pair_ok_inv in E as (n_s & n_sa & h & Es & Ec & Eh & ->).
  simpl in Es. rewrite Hs2, Hs, lookup_insert_eq in Es. injection Es as <-.
  rewrite Hc2, Hc in Ec. rewrite Hh2, Hh in Eh. simpl in Ec, Eh.
  assert (a ∈ get_legal_actions root) as Ha.
  { destruct (decide (root = root ∧ a ∈ get_legal_actions root))
      as [[_ ?]|Hn]; [done|].
    exfalso. apply Hnin. by apply (K2 root a). }
  rewrite decide_True in Ec by done. rewrite decide_True in Eh by done.
  injection Ec as <-. injection Eh as <-.
  split; [done|]. simpl.
  split; [by rewrite Ht2, Ht|].
  split; [by rewrite lookup_insert_eq|].
  split; [by rewrite lookup_insert_eq|].
  split; [|split].
  - exists sf. eexists. split; [done|]. split; [done|].
    split; [by rewrite lookup_insert_eq|].
    change (of_nat 1) with 1%Q. field.
  - intros b Hb Hne.
    rewrite !lookup_insert_ne by (intros [=]; congruence).
    rewrite Hc2, Hc, Hh2, Hh. simpl. by rewrite !decide_True.
  - intros s Hne. rewrite lookup_insert_ne by done.
    rewrite Hs2, Hs. by rewrite lookup_insert_ne.
Qed.

End MCTSFacts.

(** ** Runs on the small simworld *)

Lemma decision_episode : episode Demo.ln_q Demo.sqrt_q Demo.decision.2.
Proof.
  apply (episode_search_run Demo.ln_q Demo.sqrt_q 20 Demo.root (Demo.fresh 4)).
  - apply (episode_reset Demo.ln_q Demo.sqrt_q (Demo.fresh 4)).
  - vm_compute. reflexivity.
Defined.

Lemma root_in_tree : Demo.root ∈ tree Demo.decision.2.
Proof. refine (bool_decide_unpack _ _). vm_compute. exact I. Defined.


Lemma expanded_root_decision : expanded Demo.decision.2 Demo.root.
Proof.
  split; [apply root_in_tree|]. split; [by eexists|].
  intros a Ha. apply elem_of_cons in Ha as [->|Ha].
  - split; by eexists.
  - apply list_elem_of_singleton in Ha as ->. split; by eexists.
Defined.



(** C3 at work. *)
Lemma visit_counts_add_up_witness :
  ∃ n, visit_counts_s Demo.decision.2 !! Demo.root = Some n ∧
       (∀ a, a ∈ get_legal_actions Demo.root →
             is_Some (visit_counts_sa Demo.decision.2 !! (Demo.root, a))) ∧
       n = sum_sa Demo.decision.2 Demo.root.
Proof.
  apply (visit_counts_add_up Demo.ln_q Demo.sqrt_q Demo.decision.2 Demo.root).
  - apply decision_episode.
  - apply root_in_tree.
Defined.




(** C9 at work. *)
Lemma action_values_in_range_witness :
  (0 <= value_sa (after Demo.ln_q Demo.sqrt_q Demo.history (Demo.fresh 2))
          Demo.root Demo.take1)%Q ∧
  (value_sa (after Demo.ln_q Demo.sqrt_q Demo.history (Demo.fresh 2))
     Demo.root Demo.take1 <= 1)%Q.
Proof.
  apply (action_values_in_range Demo.ln_q Demo.sqrt_q (Demo.fresh 2)
           Demo.history Demo.root Demo.take1).
  - unfold Demo.history.
    repeat (apply Forall_cons; split); try apply Forall_nil;
      simpl; try done; try (split; lra).
  - vm_compute. reflexivity.
Defined.

(** C10 at work. *)
Lemma log_never_at_zero_witness :
  (∃ n, visit_counts_s Demo.decision.2 !! Demo.root = Some n ∧ 1 ≤ n) ∧
  ∃ new,
    log_args (mc_tree_search Demo.ln_q Demo.sqrt_q 20 Demo.root
                Demo.decision.2).2
    = log_args Demo.decision.2 ++ new ∧
    Forall (λ n, 1 ≤ n) new.
Proof.
  destruct (log_never_at_zero Demo.ln_q Demo.sqrt_q Demo.decision.2
              decision_episode) as (Htree & _ & Hsearch).
  split; [apply Htree, root_in_tree|apply Hsearch].
Defined.

(** ** The further properties at work *)

(** X8 at work: a position without discs, the root after the decision,
    and the root on a fresh object. *)
Lemma select_action_outcomes_witness :
  select_action Demo.ln_q Demo.sqrt_q (0, true) 1 Demo.decision.2
  = (Raise ValueError, Demo.decision.2) ∧
  (∃ a σ', select_action Demo.ln_q Demo.sqrt_q Demo.root 1 Demo.decision.2
           = (Ok a, σ') ∧
           a ∈ get_legal_actions Demo.root ∧ same_stats Demo.decision.2 σ') ∧
  (∃ σ', select_action Demo.ln_q Demo.sqrt_q Demo.root 1 (Demo.fresh 0)
         = (Raise KeyError, σ') ∧ same_stats (Demo.fresh 0) σ').
Proof.
  split; [|split].
  - apply (proj1 (select_action_outcomes Demo.ln_q Demo.sqrt_q
                    Demo.decision.2 (0, true) 1)).
    reflexivity.
  - apply (proj1 (proj2 (select_action_outcomes Demo.ln_q Demo.sqrt_q
                           Demo.decision.2 Demo.root 1))).
    + discriminate.
    + destruct expanded_root_decision as (_ & Hs & Hk). by split.
  - apply (proj2 (proj2 (select_action_outcomes Demo.ln_q Demo.sqrt_q
                           (Demo.fresh 0) Demo.root 1))).
    + discriminate.
    + intros [[n Hn] _]. vm_compute in Hn. discriminate.
Defined.


(** X11 at work: a backup through an action that is not legal at the
    expanded root. *)
Lemma backup_stops_half_way_witness :
  ∃ σ', backup [Demo.root] [[5%Z]] 1 Demo.expanded_root
        = (Raise KeyError, σ') ∧
        visit_counts_s σ' !! Demo.root = Some 1 ∧
        visit_counts_sa σ' = visit_counts_sa Demo.expanded_root.
Proof.
  destruct (backup_stops_half_way Demo.expanded_root Demo.root [5%Z]
              [] [] 1 0) as (σ' & E & Hs & Hc & _).
  - vm_compute. reflexivity.
  - vm_compute. reflexivity.
  - exists σ'. split; [exact E|]. split; [|exact Hc].
    rewrite Hs. apply lookup_insert_eq.
Defined.

(** X12 at work: one backup through the expanded root. *)
Lemma backup_counts_occurrences_witness :
  count_s (backup [Demo.root] [Demo.take1] 1 Demo.expanded_root).2 Demo.root
  = count_s Demo.expanded_root Demo.root
    + length (filter (λ k, k.1 = Demo.root)
                (zip [Demo.root] [Demo.take1])).
Proof.
  destruct (backup_counts_occurrences Demo.expanded_root
              (backup [Demo.root] [Demo.take1] 1 Demo.expanded_root).2
              [Demo.root] [Demo.take1] 1) as (Hs & _).
  - vm_compute. reflexivity.
  - exact (Hs Demo.root).
Defined.

(** X13 at work: a descent from the root after the decision. *)
Lemma descent_is_a_path_witness :
  ∃ path sf,
    game_path Demo.root path sf ∧
    (Demo.value_of ([], [])
       (simulate_tree Demo.ln_q Demo.sqrt_q 20
          (set_state (Some Demo.root) Demo.decision.2)).1).2 = path.*2.
Proof.
  destruct (descent_is_a_path Demo.ln_q Demo.sqrt_q
              (set_state (Some Demo.root) Demo.decision.2) 20 Demo.root
              (Demo.value_of ([], [])
                 (simulate_tree Demo.ln_q Demo.sqrt_q 20
                    (set_state (Some Demo.root) Demo.decision.2)).1).1
              (Demo.value_of ([], [])
                 (simulate_tree Demo.ln_q Demo.sqrt_q 20
                    (set_state (Some Demo.root) Demo.decision.2)).1).2
              (simulate_tree Demo.ln_q Demo.sqrt_q 20
                 (set_state (Some Demo.root) Demo.decision.2)).2)
    as (path & sf & Hpath & _ & Hacts & _).
  - reflexivity.
  - vm_compute. reflexivity.
  - by exists path, sf.
Defined.

(** X14 at work: the first simulation on a fresh object. *)
Lemma backup_lists_aligned_witness :
  length [Demo.root] = length (([] : list (list Z)) ++ [Demo.take1]).
Proof.
  apply (backup_lists_aligned Demo.ln_q Demo.sqrt_q
           (set_state (Some Demo.root) (Demo.fresh 0)) 20
           [Demo.root] []
           (simulate_tree Demo.ln_q Demo.sqrt_q 20
              (set_state (Some Demo.root) (Demo.fresh 0))).2
           0 (Some Demo.take1)
           (simulate_default 20
              (simulate_tree Demo.ln_q Demo.sqrt_q 20
                 (set_state (Some Demo.root) (Demo.fresh 0))).2).2).
  - vm_compute. reflexivity.
  - vm_compute. reflexivity.
Defined.

(** X15 at work: a rollout from the root. *)
Lemma rollout_ends_at_final_state_witness :
  ∃ sf, state (simulate_default 20
                 (set_state (Some Demo.root) (Demo.fresh 0))).2 = Some sf ∧
        state_is_final sf = true.
Proof.
  destruct (rollout_ends_at_final_state
              (set_state (Some Demo.root) (Demo.fresh 0)) 20 Demo.root
              (Demo.value_of (0%Q, None)
                 (simulate_default 20
                    (set_state (Some Demo.root) (Demo.fresh 0))).1).1
              (Demo.value_of (0%Q, None)
                 (simulate_default 20
                    (set_state (Some Demo.root) (Demo.fresh 0))).1).2
              (simulate_default 20
                 (set_state (Some Demo.root) (Demo.fresh 0))).2)
    as ((sf & Hsf & Hfin & _) & _).
  - reflexivity.
  - vm_compute. reflexivity.
  - by exists sf.
Defined.

(** X16 at work: the empty position after the decision. *)
Lemma final_states_never_expanded_witness :
  (0, true) ∉ tree Demo.decision.2 ∧
  visit_counts_s Demo.decision.2 !! (0, true) = None.
Proof.
  destruct (final_states_never_expanded Demo.ln_q Demo.sqrt_q
              Demo.decision.2 (0, true)) as (Hnin & Hs & _).
  - apply decision_episode.
  - reflexivity.
  - by split.
Defined.

(** X17 at work. *)
Lemma simulate_on_final_root_witness :
  simulate Demo.ln_q Demo.sqrt_q 20 (0, true) Demo.decision.2
  = (Ok tt, set_state (Some (0, true)) Demo.decision.2).
Proof.
  apply (simulate_on_final_root Demo.ln_q Demo.sqrt_q Demo.decision.2
           20 (0, true)).
  - reflexivity.
  - lia.
Defined.

(** X18 at work. *)
Lemma decision_at_final_root_raises_witness :
  ∃ σ', mc_tree_search Demo.ln_q Demo.sqrt_q 20 (0, false) Demo.decision.2
        = (Raise ValueError, σ') ∧
        same_stats Demo.decision.2 σ'.
Proof.
  destruct (decision_at_final_root_raises Demo.ln_q Demo.sqrt_q
              Demo.decision.2 20 (0, false)) as (σ' & E & Hs).
  - apply decision_episode.
  - reflexivity.
  - lia.
  - exists σ'. split; [|exact Hs]. etrans; [exact E|].
    destruct (decide (get_legal_actions (0, false) = [])) as [_|Hne];
      [reflexivity|by destruct Hne].
Defined.

(** X19 at work: the decision of four simulations. *)
Lemma decision_credits_root_witness :
  count_s (Demo.fresh 4) Demo.root + 4 ≤ count_s Demo.decision.2 Demo.root.
Proof.
  apply (decision_credits_root Demo.ln_q Demo.sqrt_q (Demo.fresh 4) 20
           Demo.root (Demo.value_of ([], []) Demo.decision.1)
           Demo.decision.2).
  - apply (episode_reset Demo.ln_q Demo.sqrt_q (Demo.fresh 4)).
  - reflexivity.
  - vm_compute. reflexivity.
Defined.

(** X20 at work: the first simulation on a fresh object. *)
Lemma first_simulation_expands_root_witness :
  Demo.take1 ∈ get_legal_actions Demo.root ∧
  visit_counts_s
    (simulate Demo.ln_q Demo.sqrt_q 20 Demo.root (Demo.fresh 0)).2
    !! Demo.root = Some 1.
Proof.
  destruct (first_simulation_expands_root Demo.ln_q Demo.sqrt_q
              (Demo.fresh 0) 20 Demo.root
              (simulate Demo.ln_q Demo.sqrt_q 20 Demo.root (Demo.fresh 0)).2)
    as (Ha & _ & Hs & _).
  - apply (episode_reset Demo.ln_q Demo.sqrt_q (Demo.fresh 0)).
  - apply not_elem_of_empty.
  - reflexivity.
  - vm_compute. reflexivity.
  - split; [exact Ha|exact Hs].
Defined.
